(** * A sudoku solver: constraint propagation with backtracking

    Shallow embedding of [solver.py]: the [Board] class with its peer
    generators, [find_all_possible] and [is_valid], and the function [solve].

    A board is the Python value [items : List[List[int]]].  Cell values are
    Python integers ([Z] here); coordinates are the natural numbers that
    [range(9)] produces.  Generators are embedded as the list of the values
    they yield, in order; the Python sets [other] and [s] as [gset Z]. *)

From stdpp Require Import base option list gmap strings pretty sorting.
From Stdlib Require Import ZArith Lia Ascii.
From Stdlib Require String.

(** ** The board *)

Abbreviation Board := (list (list Z)).

(** [self.items[x]].  Python raises [IndexError] when [x] is out of range;
    the embedding returns the empty row there.  Every index the solver uses
    comes from [range(9)], so on a well-formed board (see [wf]) no lookup is
    ever out of range. *)
Definition row (b : Board) (x : nat) : list Z := default [] (b !! x).

(** [self.items[x][y]], with [0] standing for the out-of-range lookup. *)
Definition item (b : Board) (x y : nat) : Z := default 0%Z (row b x !! y).

(** The state of the board after [board.items[x][y] = v]. *)
Definition set_item (b : Board) (x y : nat) (v : Z) : Board :=
  alter (λ r, <[y:=v]> r) x b.

(** Nine rows of nine cells each. *)
Definition wf (b : Board) : Prop :=
  length b = 9 ∧ Forall (λ r : list Z, length r = 9) b.

(** ** Peer generators *)

Definition yield_box (b : Board) (x y : nat) : list Z :=
  let x_start := x / 3 * 3 in
  let y_start := y / 3 * 3 in
  i ← seq x_start 3;
  j ← seq y_start 3;
  if decide (i = x ∧ j = y) then [] else [item b i j].

Definition yield_row (b : Board) (x y : nat) : list Z :=
  mjoin (imap (λ i value, if decide (i = y) then [] else [value]) (row b x)).

Definition yield_column (b : Board) (x y : nat) : list Z :=
  a ← seq 0 9;
  if decide (a = x) then [] else [item b a y].

Definition _all_others (b : Board) (x y : nat) : list Z :=
  yield_box b x y ++ yield_row b x y ++ yield_column b x y.

(** ** Legal values of a cell *)

Definition find_all_possible (b : Board) (x y : nat) : list Z :=
  let other : gset Z :=
    list_to_set (filter (λ i : Z, i ≠ 0%Z) (_all_others b x y)) in
  filter (λ i : Z, i ∉ other) (seqZ 1 9).

(** ** Consistency *)

(** The body shared by the three loops of [is_valid]: walk one group of
    cells with the set [s] of values seen so far, skip zeros, and stop with
    [False] at the first value already seen. *)
Fixpoint no_repeat (s : gset Z) (items : list Z) : bool :=
  match items with
  | [] => true
  | item :: rest =>
      if decide (item = 0%Z) then no_repeat s rest
      else if decide (item ∈ s) then false
      else no_repeat ({[item]} ∪ s) rest
  end.

(** First loop: [for row in self.items]. *)
Definition rows_pass (b : Board) : bool :=
  forallb (no_repeat ∅) b.

(** Second loop: [for x in range(9)], [for y in range(9)], reading
    [self.items[x][y]]. *)
Definition second_pass (b : Board) : bool :=
  forallb (λ x, no_repeat ∅ ((λ y, item b x y) <$> seq 0 9)) (seq 0 9).

(** Third loop: [i], [j] in [range(0, 9, 3)], [k], [l] in [range(3)]. *)
Definition boxes_pass (b : Board) : bool :=
  forallb (λ i,
    forallb (λ j,
      no_repeat ∅ (k ← seq 0 3; l ← seq 0 3; [item b (i + k) (j + l)]))
      [0; 3; 6])
    [0; 3; 6].

Definition is_valid (b : Board) : bool :=
  rows_pass b && second_pass b && boxes_pass b.

(** ** The solver *)

(** What a call of [solve] produces.  [Returned None] is Python's [None],
    [Returned (Some g)] the board [g]; [OutOfFuel] is no value of the
    program, it marks a run of the model that was cut short. *)
Inductive outcome (B : Type) : Type :=
  | OutOfFuel
  | Returned (r : option B).
Arguments OutOfFuel {B}.
Arguments Returned {B} r.

Abbreviation coord := (nat * nat)%type.
Abbreviation possibles_entry := ((nat * nat) * list Z)%type.

(** The coordinates in the order of the two nested [range(9)] loops. *)
Definition cells : list coord :=
  x ← seq 0 9; y ← seq 0 9; [(x, y)].

(** The scan at the top of the [while] body: [None] is the early
    [return None] on an empty cell without a legal value, [Some l] the
    finished [list_of_possibles]. *)
Fixpoint scan_cells (b : Board) (cs : list coord) : option (list possibles_entry) :=
  match cs with
  | [] => Some []
  | (x, y) :: rest =>
      if decide (item b x y = 0%Z) then
        let all_possible := find_all_possible b x y in
        match all_possible with
        | [] => None
        | _ => (λ l, ((x, y), all_possible) :: l) <$> scan_cells b rest
        end
      else scan_cells b rest
  end.

Definition scan (b : Board) : option (list possibles_entry) :=
  scan_cells b cells.

(** [[x for x in list_of_possibles if len(x[1]) == 1]]. *)
Definition singles_of (l : list possibles_entry) : list possibles_entry :=
  filter (λ e : possibles_entry, length e.2 = 1) l.

(** The loop over [singles]: one write, then one call of [is_valid], per
    single.  The result is the state of the board when the loop is left and
    whether it was left normally ([true]) or through [return None]. *)
Fixpoint assign_singles (b : Board) (singles : list possibles_entry) : Board * bool :=
  match singles with
  | [] => (b, true)
  | ((x, y), all_possible) :: rest =>
      let b' := set_item b x y (hd 0%Z all_possible) in
      if is_valid b' then assign_singles b' rest else (b', false)
  end.

(** The loop over the candidates of the first open cell.  [rec] is the
    recursive call; the board handed to it is the copy with the candidate
    written ([deepcopy] is the identity on immutable values; the version
    with an explicit store of row objects is [Store.try_candidates]). *)
Fixpoint try_candidates (rec : Board → outcome Board) (b : Board)
    (coordinates : coord) (possibles : list Z) : outcome Board :=
  match possibles with
  | [] => Returned None
  | i :: rest =>
      match rec (set_item b coordinates.1 coordinates.2 i) with
      | OutOfFuel => OutOfFuel
      | Returned (Some ret) => Returned (Some ret)
      | Returned None => try_candidates rec b coordinates rest
      end
  end.

(** The [while True] loop of one activation; [fuel] bounds its number of
    iterations. *)
Fixpoint solve_loop (rec : Board → outcome Board) (fuel : nat) (b : Board)
    : outcome Board :=
  match fuel with
  | 0 => OutOfFuel
  | S fuel' =>
      match scan b with
      | None => Returned None
      | Some [] => Returned (Some b)
      | Some (((coordinates, possibles) :: _) as list_of_possibles) =>
          match singles_of list_of_possibles with
          | [] => try_candidates rec b coordinates possibles
          | singles =>
              match assign_singles b singles with
              | (b', true) => solve_loop rec fuel' b'
              | (_, false) => Returned None
              end
          end
      end
  end.

(** [solve]: [depth] bounds the nesting of recursive calls below this
    activation, [fuel] the iterations of the loop of each activation. *)
Fixpoint solve (depth fuel : nat) (b : Board) : outcome Board :=
  solve_loop
    (match depth with
     | 0 => λ _, OutOfFuel
     | S depth' => solve depth' fuel
     end) fuel b.

(** The function that a recursive call inside [solve depth fuel] runs. *)
Definition callee (depth fuel : nat) : Board → outcome Board :=
  match depth with
  | 0 => λ _, OutOfFuel
  | S depth' => solve depth' fuel
  end.

(** ** The solver on a store of row objects

    [solve] writes into the lists that its argument is made of, and
    [deepcopy] makes new ones.  To speak about which object a write reaches,
    this second embedding keeps the row lists in a store: an address is an
    index into the store, allocation appends.  A board object is the list of
    the addresses of its rows; neither that list nor the [Board] object
    around it is ever written by the solver.  Functions that only read
    ([find_all_possible], [is_valid], the scan) run on the contents [read]
    finds in the store. *)
Module Store.

Abbreviation store := (list (list Z)).
Abbreviation board_ref := (list nat).

(** The contents of a board object. *)
Definition read (h : store) (b : board_ref) : Board :=
  (λ a, default [] (h !! a)) <$> b.

(** [board.items[x][y] = v]: the row object at [board.items[x]] changes. *)
Definition write (h : store) (b : board_ref) (x y : nat) (v : Z) : store :=
  match b !! x with
  | Some a => alter (λ r, <[y:=v]> r) a h
  | None => h
  end.

(** [deepcopy] of the rows.  [memo] is the memo dictionary of [deepcopy]:
    a row object met a second time is not copied again, the board copy
    refers to its first copy. *)
Fixpoint copy_rows (memo : gmap nat nat) (h : store) (rows : list nat)
    : store * list nat :=
  match rows with
  | [] => (h, [])
  | a :: rest =>
      match memo !! a with
      | Some a' =>
          let '(h', rest') := copy_rows memo h rest in (h', a' :: rest')
      | None =>
          let a' := length h in
          let '(h', rest') :=
            copy_rows (<[a:=a']> memo) (h ++ [default [] (h !! a)]) rest in
          (h', a' :: rest')
      end
  end.

Definition deepcopy (h : store) (b : board_ref) : store * board_ref :=
  copy_rows ∅ h b.

Fixpoint assign_singles (h : store) (b : board_ref)
    (singles : list possibles_entry) : store * bool :=
  match singles with
  | [] => (h, true)
  | ((x, y), all_possible) :: rest =>
      let h' := write h b x y (hd 0%Z all_possible) in
      if is_valid (read h' b) then assign_singles h' b rest else (h', false)
  end.

Fixpoint try_candidates
    (rec : store → board_ref → store * outcome board_ref)
    (h : store) (board : board_ref) (coordinates : coord)
    (possibles : list Z) : store * outcome board_ref :=
  match possibles with
  | [] => (h, Returned None)
  | i :: rest =>
      let '(h1, b) := deepcopy h board in
      let h2 := write h1 b coordinates.1 coordinates.2 i in
      match rec h2 b with
      | (h3, OutOfFuel) => (h3, OutOfFuel)
      | (h3, Returned (Some ret)) => (h3, Returned (Some ret))
      | (h3, Returned None) => try_candidates rec h3 board coordinates rest
      end
  end.

Fixpoint solve_loop (rec : store → board_ref → store * outcome board_ref)
    (fuel : nat) (h : store) (board : board_ref)
    : store * outcome board_ref :=
  match fuel with
  | 0 => (h, OutOfFuel)
  | S fuel' =>
      match scan (read h board) with
      | None => (h, Returned None)
      | Some [] => (h, Returned (Some board))
      | Some (((coordinates, possibles) :: _) as list_of_possibles) =>
          match singles_of list_of_possibles with
          | [] => try_candidates rec h board coordinates possibles
          | singles =>
              match assign_singles h board singles with
              | (h', true) => solve_loop rec fuel' h' board
              | (h', false) => (h', Returned None)
              end
          end
      end
  end.

Fixpoint solve (depth fuel : nat) (h : store) (board : board_ref)
    : store * outcome board_ref :=
  solve_loop
    (match depth with
     | 0 => λ h _, (h, OutOfFuel)
     | S depth' => solve depth' fuel
     end) fuel h board.

Definition callee (depth fuel : nat)
    : store → board_ref → store * outcome board_ref :=
  match depth with
  | 0 => λ h _, (h, OutOfFuel)
  | S depth' => solve depth' fuel
  end.

(** Every row of the board object is an object of the store. *)
Definition valid (h : store) (b : board_ref) : Prop :=
  ∀ a, a ∈ b → a < length h.

(** The outcome of a run, with the returned board object replaced by its
    contents in the final store. *)
Definition contents (h : store) (r : outcome board_ref) : outcome Board :=
  match r with
  | OutOfFuel => OutOfFuel
  | Returned o => Returned (read h <$> o)
  end.

(** A run on the store from [h] with the board object [b] ended in [res];
    [pure] is what the solver on board values computes.  The two agree,
    the store has only grown, and no object outside [b] that existed
    before has changed. *)
Definition refines (h : store) (b : board_ref)
    (res : store * outcome board_ref) (pure : outcome Board) : Prop :=
  pure = contents res.1 res.2 ∧
  length h ≤ length res.1 ∧
  ∀ a, a < length h → a ∉ b → res.1 !! a = h !! a.

End Store.

(** ** Vocabulary of the specification *)

(** The value of the cell at a coordinate pair. *)
Definition cell (b : Board) (p : coord) : Z := item b p.1 p.2.

Definition in_grid (p : coord) : Prop := p.1 < 9 ∧ p.2 < 9.

(** The three kinds of constraint group: two cells lie in the same row,
    the same column, the same 3x3 box. *)
Definition same_row (p q : coord) : Prop := p.1 = q.1.
Definition same_column (p q : coord) : Prop := p.2 = q.2.
Definition same_box (p q : coord) : Prop := p.1 / 3 = q.1 / 3 ∧ p.2 / 3 = q.2 / 3.

(** [q] is a peer of [p]: another cell of the grid sharing its row, its
    column or its box. *)
Definition peer (p q : coord) : Prop :=
  in_grid q ∧ q ≠ p ∧ (same_row p q ∨ same_column p q ∨ same_box p q).

(** Some group of kind [R] holds a repeated non-zero value. *)
Definition repeated_in (R : coord → coord → Prop) (b : Board) : Prop :=
  ∃ p q, in_grid p ∧ in_grid q ∧ p ≠ q ∧ R p q ∧
         cell b p ≠ 0%Z ∧ cell b p = cell b q.

(** No group of kind [R] holds a repeated non-zero value. *)
Definition distinct_in (R : coord → coord → Prop) (b : Board) : Prop :=
  ∀ p q, in_grid p → in_grid q → p ≠ q → R p q →
         cell b p ≠ 0%Z → cell b p ≠ cell b q.

(** The three uniqueness constraints of the game. *)
Definition consistent (b : Board) : Prop :=
  distinct_in same_row b ∧ distinct_in same_column b ∧ distinct_in same_box b.

(** All 81 cells are non-zero. *)
Definition full (b : Board) : Prop := ∀ p, in_grid p → cell b p ≠ 0%Z.

(** [c] agrees with [b] on every cell that [b] has filled. *)
Definition extends (b c : Board) : Prop :=
  ∀ p, in_grid p → cell b p ≠ 0%Z → cell c p = cell b p.

(** [c] is a valid completion of [b]: a grid of digits 1 to 9 that keeps
    the cells of [b] and satisfies the three constraints. *)
Definition completion (b c : Board) : Prop :=
  wf c ∧ (∀ p, in_grid p → (1 ≤ cell c p ≤ 9)%Z) ∧ extends b c ∧ consistent c.

(** The cells that the third loop of [is_valid] visits for one pair
    [(i, j)] of box corners. *)
Definition box_cells (i j : nat) : list coord :=
  k ← seq 0 3; l ← seq 0 3; [(i + k, j + l)].

(** The entry that the scan records for an empty cell. *)
Definition entry_of (b : Board) (p : coord) : possibles_entry :=
  (p, find_all_possible b p.1 p.2).

#[global] Instance same_row_dec p q : Decision (same_row p q).
Proof. unfold same_row. apply _. Defined.
#[global] Instance same_column_dec p q : Decision (same_column p q).
Proof. unfold same_column. apply _. Defined.
#[global] Instance same_box_dec p q : Decision (same_box p q).
Proof. unfold same_box. apply _. Defined.

(** Decision procedures for [consistent] and [completion], by enumeration
    of the cells. *)
Definition consistent_check (c : Board) : bool :=
  bool_decide (Forall (λ p, Forall (λ q,
    p ≠ q → same_row p q ∨ same_column p q ∨ same_box p q →
    cell c p ≠ 0%Z → cell c p ≠ cell c q) cells) cells).

Definition completion_check (b c : Board) : bool :=
  bool_decide (Forall (λ p,
    (1 ≤ cell c p ≤ 9)%Z ∧ (cell b p ≠ 0%Z → cell c p = cell b p)) cells) &&
  consistent_check c.

(** Every digit but [v] occurs in row [x] of [b] outside column [y]. *)
Definition row_forces (b : Board) (x y : nat) (v : Z) : bool :=
  bool_decide (Forall (λ w : Z,
    w = v ∨ Exists (λ y', y' ≠ y ∧ item b x y' = w) (seq 0 9)) (seqZ 1 9)).

(** The state of the board after the writes
    [board.items[x][y] = all_possible[0]] for the entries of [ss], in their
    order, with no check in between. *)
Definition write_singles (b : Board) (ss : list possibles_entry) : Board :=
  foldl (λ b' e, set_item b' e.1.1 e.1.2 (hd 0%Z e.2)) b ss.

(** An entry of [singles] that is still to be written: its cell is an
    empty cell of the grid and its first value is a digit. *)
Definition pending (b : Board) (e : possibles_entry) : Prop :=
  in_grid e.1 ∧ cell b e.1 = 0%Z ∧ hd 0%Z e.2 ≠ 0%Z.

(** The number of empty cells. *)
Definition empties (b : Board) : nat :=
  length (filter (λ p, cell b p = 0%Z) cells).

(** ** Boards of the test suite *)

Definition test_parse_board : Board :=
  [ [3; 1; 0; 0; 0; 0; 0; 0; 0];
    [0; 0; 0; 9; 5; 2; 6; 0; 0];
    [5; 9; 0; 0; 3; 0; 0; 0; 2];
    [0; 0; 0; 0; 8; 0; 9; 7; 5];
    [0; 0; 0; 2; 0; 1; 0; 0; 0];
    [9; 4; 8; 0; 6; 0; 0; 0; 0];
    [8; 0; 0; 0; 7; 0; 0; 6; 9];
    [0; 0; 9; 6; 2; 4; 0; 0; 0];
    [0; 0; 0; 0; 0; 0; 0; 3; 4] ]%Z.

(** The grid that [solve] returns for [test_parse_board]. *)
Definition test_parse_solution : Board :=
  [ [3; 1; 2; 7; 4; 6; 5; 9; 8];
    [4; 8; 7; 9; 5; 2; 6; 1; 3];
    [5; 9; 6; 1; 3; 8; 7; 4; 2];
    [2; 6; 1; 4; 8; 3; 9; 7; 5];
    [7; 5; 3; 2; 9; 1; 4; 8; 6];
    [9; 4; 8; 5; 6; 7; 3; 2; 1];
    [8; 2; 4; 3; 7; 5; 1; 6; 9];
    [1; 3; 9; 6; 2; 4; 8; 5; 7];
    [6; 7; 5; 8; 1; 9; 2; 3; 4] ]%Z.

(** ** Boards used as examples *)

(** The board without any given value, and the grid [solve] finds for it. *)
Definition empty_board : Board := replicate 9 (replicate 9 0%Z).

Definition empty_board_solution : Board :=
  [ [1; 2; 3; 4; 5; 6; 7; 8; 9];
    [4; 5; 6; 7; 8; 9; 1; 2; 3];
    [7; 8; 9; 1; 2; 3; 4; 5; 6];
    [2; 1; 4; 3; 6; 5; 8; 9; 7];
    [3; 6; 5; 8; 9; 7; 2; 1; 4];
    [8; 9; 7; 2; 1; 4; 3; 6; 5];
    [5; 3; 1; 6; 4; 2; 9; 7; 8];
    [6; 4; 2; 9; 7; 8; 5; 3; 1];
    [9; 7; 8; 5; 3; 1; 6; 4; 2] ]%Z.

(** A filled grid with the same digit everywhere. *)
Definition all_ones : Board := replicate 9 (replicate 9 1%Z).

(** Two fives in column 0, in different boxes, and nothing else. *)
Definition column_clash : Board :=
  [ [5; 0; 0; 0; 0; 0; 0; 0; 0];
    [0; 0; 0; 0; 0; 0; 0; 0; 0];
    [0; 0; 0; 0; 0; 0; 0; 0; 0];
    [5; 0; 0; 0; 0; 0; 0; 0; 0];
    [0; 0; 0; 0; 0; 0; 0; 0; 0];
    [0; 0; 0; 0; 0; 0; 0; 0; 0];
    [0; 0; 0; 0; 0; 0; 0; 0; 0];
    [0; 0; 0; 0; 0; 0; 0; 0; 0];
    [0; 0; 0; 0; 0; 0; 0; 0; 0] ]%Z.

(** A board without repeated values on which the corner cell (0,0) cannot
    be filled: its row holds 1 to 8 and its box holds 9. *)
Definition dead_corner : Board :=
  [ [0; 1; 2; 3; 4; 5; 6; 7; 8];
    [0; 9; 0; 0; 0; 0; 0; 0; 0];
    [0; 0; 0; 0; 0; 0; 0; 0; 0];
    [0; 0; 0; 0; 0; 0; 0; 0; 0];
    [0; 0; 0; 0; 0; 0; 0; 0; 0];
    [0; 0; 0; 0; 0; 0; 0; 0; 0];
    [0; 0; 0; 0; 0; 0; 0; 0; 0];
    [0; 0; 0; 0; 0; 0; 0; 0; 0];
    [0; 0; 0; 0; 0; 0; 0; 0; 0] ]%Z.

(** A board without repeated values in any row, column or box.  Rows 0 and
    6 each lack only the digit 7, and both have their gap in column 3. *)
Definition column_slip_board : Board :=
  [ [3; 1; 2; 0; 4; 6; 5; 9; 8];
    [4; 8; 7; 9; 5; 2; 6; 1; 3];
    [5; 9; 6; 0; 0; 8; 7; 4; 2];
    [2; 6; 1; 4; 8; 3; 9; 7; 5];
    [7; 5; 3; 2; 9; 1; 4; 8; 6];
    [9; 4; 8; 5; 6; 7; 3; 2; 1];
    [8; 2; 4; 0; 3; 5; 1; 6; 9];
    [1; 3; 9; 6; 2; 4; 8; 5; 7];
    [6; 7; 5; 8; 0; 9; 2; 3; 4] ]%Z.

(** What [solve] makes of it: 7 twice in column 3, 1 twice in column 4. *)
Definition column_slip_result : Board :=
  [ [3; 1; 2; 7; 4; 6; 5; 9; 8];
    [4; 8; 7; 9; 5; 2; 6; 1; 3];
    [5; 9; 6; 3; 1; 8; 7; 4; 2];
    [2; 6; 1; 4; 8; 3; 9; 7; 5];
    [7; 5; 3; 2; 9; 1; 4; 8; 6];
    [9; 4; 8; 5; 6; 7; 3; 2; 1];
    [8; 2; 4; 7; 3; 5; 1; 6; 9];
    [1; 3; 9; 6; 2; 4; 8; 5; 7];
    [6; 7; 5; 8; 1; 9; 2; 3; 4] ]%Z.

(** A puzzle that [test_parse_solution] completes, and the grid [solve]
    returns for it, with 3 twice in column 4. *)
Definition spoiled_puzzle : Board :=
  [ [0; 1; 0; 0; 0; 0; 0; 0; 0];
    [4; 0; 7; 9; 5; 2; 0; 0; 3];
    [5; 9; 0; 0; 0; 8; 0; 4; 2];
    [2; 6; 1; 0; 0; 0; 9; 0; 0];
    [7; 5; 3; 2; 9; 1; 4; 0; 6];
    [0; 0; 8; 5; 0; 7; 0; 0; 1];
    [0; 2; 4; 0; 0; 5; 0; 0; 0];
    [1; 3; 0; 0; 0; 0; 0; 0; 0];
    [0; 0; 0; 8; 1; 0; 2; 3; 4] ]%Z.

Definition spoiled_result : Board :=
  [ [3; 1; 2; 4; 7; 6; 5; 9; 8];
    [4; 8; 7; 9; 5; 2; 1; 6; 3];
    [5; 9; 6; 1; 3; 8; 7; 4; 2];
    [2; 6; 1; 3; 8; 4; 9; 5; 7];
    [7; 5; 3; 2; 9; 1; 4; 8; 6];
    [9; 4; 8; 5; 6; 7; 3; 2; 1];
    [8; 2; 4; 7; 3; 5; 6; 1; 9];
    [1; 3; 9; 6; 2; 4; 8; 7; 5];
    [6; 7; 5; 8; 1; 9; 2; 3; 4] ]%Z.

(** A board without repeated values whose scan finds three singles, at
    (0,0), (0,1) and (8,8), each forced to 9; the first two share a row. *)
Definition early_exit_board : Board :=
  [ [0; 0; 1; 2; 3; 4; 5; 6; 7];
    [0; 0; 0; 0; 0; 0; 0; 0; 0];
    [0; 0; 0; 0; 0; 0; 0; 0; 0];
    [8; 0; 0; 0; 0; 0; 0; 0; 0];
    [0; 0; 0; 0; 0; 0; 0; 0; 0];
    [0; 0; 0; 0; 0; 0; 0; 0; 0];
    [0; 8; 0; 0; 0; 0; 0; 0; 0];
    [0; 0; 0; 0; 0; 0; 0; 0; 0];
    [1; 2; 3; 4; 5; 6; 7; 8; 0] ]%Z.

(** The scan of [early_exit_board] and the board its propagation pass
    leaves behind. *)
Definition early_exit_scan : list possibles_entry :=
  default [] (scan early_exit_board).
Definition early_exit_pass : Board :=
  (assign_singles early_exit_board (singles_of early_exit_scan)).1.

(** ** Reading and printing boards

    A Python [str] is embedded as the list of its characters; a character is
    a code point below 256 ([ascii]).  Text written to [output] is the
    concatenation of the strings written. *)

Abbreviation str := (list ascii).

(** The code points below 256 that [str.strip] removes. *)
Definition isspace (c : ascii) : bool :=
  bool_decide (nat_of_ascii c ∈ [9; 10; 11; 12; 13; 28; 29; 30; 31; 32; 133; 160]).

Fixpoint lstrip (s : str) : str :=
  match s with
  | [] => []
  | c :: rest => if isspace c then lstrip rest else s
  end.

Definition rstrip (s : str) : str := reverse (lstrip (reverse s)).

(** [s.strip()]. *)
Definition strip (s : str) : str := rstrip (lstrip s).

(** [s.replace(old, new)] for a pattern [old] of one character. *)
Definition replace (old : ascii) (new : str) (s : str) : str :=
  c ← s; if decide (c = old) then new else [c].

(** [int(c)] for a string of one character: [None] is [ValueError]. *)
Definition int_of_char (c : ascii) : option Z :=
  if decide (48 ≤ nat_of_ascii c ≤ 57)
  then Some (Z.of_nat (nat_of_ascii c - 48))
  else None.

(** [str(i)] for an integer. *)
Definition str_of_int (i : Z) : str := String.list_ascii_of_string (pretty i).

(** The two exceptions [board_from_lines] can raise: the [Exception] it
    raises itself, with its message, and the [ValueError] of [int]. *)
Inductive error : Type :=
  | Exception (message : str)
  | ValueError.

(** The message for line number [n]; the second literal of the source is
    not an f-string, so the text [{line}] stays as it is. *)
Definition length_message (n : nat) : str :=
  String.list_ascii_of_string "Line "%string ++ str_of_int (Z.of_nat n)
  ++ String.list_ascii_of_string " in does not contain 9 items as expected: {line}"%string.

(** The normal form of a line:
    [line.strip().replace(" ", "").replace(".", "0")]. *)
Definition normalize (line : str) : str :=
  replace "."%char ["0"%char] (replace " "%char [] (strip line)).

(** The loop of [board_from_lines], from index [i] of [enumerate] on, with
    the rows appended to [items] so far. *)
Fixpoint board_from_lines_from (i : nat) (lines : list str) (items : Board)
    : error + Board :=
  match lines with
  | [] => inr items
  | line :: rest =>
      let line := normalize line in
      if decide (line = []) then board_from_lines_from (S i) rest items
      else if decide (length line ≠ 9) then inl (Exception (length_message (i + 1)))
      else match mapM int_of_char line with
           | None => inl ValueError
           | Some r => board_from_lines_from (S i) rest (items ++ [r])
           end
  end.

Definition board_from_lines (lines : list str) : error + Board :=
  board_from_lines_from 0 lines [].

(** [input.split("\n")]. *)
Fixpoint split_lines (input : str) : list str :=
  match input with
  | [] => [[]]
  | c :: rest =>
      if decide (c = "010"%char) then [] :: split_lines rest
      else match split_lines rest with
           | line :: lines => (c :: line) :: lines
           | [] => [[c]]
           end
  end.

Definition board_from_str (input : str) : error + Board :=
  board_from_lines (split_lines input).

Definition _dot_or_num (i : Z) : str :=
  if decide (i = 0%Z) then ["."%char] else str_of_int i.

(** [sep.join(l)]. *)
Fixpoint join (sep : str) (l : list str) : str :=
  match l with
  | [] => []
  | [x] => x
  | x :: rest => x ++ sep ++ join sep rest
  end.

(** The text of one row: its three slices [row[j:j+3]], the values of a
    slice joined by one space, the slices by two. *)
Definition row_text (r : list Z) : str :=
  join [" "%char; " "%char]
    ((λ j, join [" "%char] (_dot_or_num <$> take 3 (drop j r))) <$> [0; 3; 6]).

(** What [Board.print] writes to [output]. *)
Definition print (b : Board) : str :=
  mjoin (imap (λ i r,
    (if decide (i ∈ [3; 6]) then ["010"%char] else [])
    ++ row_text r ++ ["010"%char]) b).

(** A row as [board_from_lines] builds it: nine values from 0 to 9. *)
Definition digit_row (r : list Z) : Prop :=
  length r = 9 ∧ Forall (λ v, (0 ≤ v ≤ 9)%Z) r.

(** A line that [board_from_lines] gets past: blank once normalised, or
    nine characters that [int] accepts. *)
Definition good_line (line : str) : Prop :=
  normalize line = [] ∨
  (length (normalize line) = 9 ∧ is_Some (mapM int_of_char (normalize line))).

(** Row-major order on coordinates. *)
Definition row_major (p q : coord) : Prop :=
  p.1 < q.1 ∨ (p.1 = q.1 ∧ p.2 < q.2).

#[global] Instance row_major_dec p q : Decision (row_major p q).
Proof. unfold row_major. apply _. Defined.

(** * Properties *)

(** ** Reading and writing cells *)

Lemma row_length (b : Board) x : wf b → x < 9 → length (row b x) = 9.
Proof.
  intros [Hlen Hrows] Hx. unfold row.
  destruct (lookup_lt_is_Some_2 b x) as [r Hr]; [lia|].
  rewrite Hr. simpl. eapply Forall_lookup_1 in Hrows; eauto.
Qed.

Lemma row_set_item (b : Board) x y v x' :
  row (set_item b x y v) x' = if decide (x' = x) then <[y:=v]> (row b x) else row b x'.
Proof.
  unfold row, set_item. case_decide as Hx.
  - subst x'. rewrite list_lookup_alter_eq. by destruct (b !! x).
  - by rewrite list_lookup_alter_ne.
Qed.

Lemma item_set_item_eq (b : Board) x y v :
  wf b → x < 9 → y < 9 → item (set_item b x y v) x y = v.
Proof.
  intros Hwf Hx Hy. unfold item. rewrite row_set_item, decide_True by done.
  rewrite list_lookup_insert_eq; [done|]. rewrite row_length; done.
Qed.

Lemma item_set_item_ne (b : Board) x y v x' y' :
  (x', y') ≠ (x, y) → item (set_item b x y v) x' y' = item b x' y'.
Proof.
  intros Hne. unfold item. rewrite row_set_item. case_decide as Hx; [|done].
  subst x'. rewrite list_lookup_insert_ne; [done|]. congruence.
Qed.

Lemma wf_set_item (b : Board) x y v : wf b → wf (set_item b x y v).
Proof.
  intros [Hlen Hrows]. split.
  - unfold set_item. by rewrite length_alter.
  - unfold set_item. apply Forall_alter; [done|].
    intros r _ Hr. simpl. by rewrite length_insert.
Qed.

(** ** Peers *)

(** The indices of band [q] are [q * 3], [q * 3 + 1] and [q * 3 + 2]. *)
Lemma band_range i q : q * 3 ≤ i < q * 3 + 3 ↔ i / 3 = q.
Proof.
  split.
  - intros Hi. symmetry. apply (Nat.div_unique i 3 q (i - q * 3)); lia.
  - intros Hi. pose proof (Nat.div_mod_eq i 3) as Hd.
    pose proof (Nat.mod_upper_bound i 3). rewrite Hi in Hd. lia.
Qed.

(** [x // 3 * 3] is the first index of the band of three that holds [x]. *)
Lemma band_start i x : x / 3 * 3 ≤ i < x / 3 * 3 + 3 ↔ i / 3 = x / 3.
Proof. apply band_range. Qed.

Lemma band_lt i x : i / 3 = x / 3 → x < 9 → i < 9.
Proof.
  intros Hi Hx. pose proof (Nat.div_mod_eq i 3) as Hd.
  pose proof (Nat.div_mod_eq x 3). pose proof (Nat.mod_upper_bound i 3).
  rewrite Hi in Hd. lia.
Qed.

Lemma elem_of_yield_box (b : Board) x y v :
  v ∈ yield_box b x y ↔
  ∃ i j, i / 3 = x / 3 ∧ j / 3 = y / 3 ∧ (i, j) ≠ (x, y) ∧ item b i j = v.
Proof.
  unfold yield_box. rewrite list_elem_of_bind. split.
  - intros (i & Hv & Hi). apply list_elem_of_bind in Hv as (j & Hv & Hj).
    apply elem_of_seq in Hi, Hj. case_decide as Hij.
    + by apply elem_of_nil in Hv.
    + apply list_elem_of_singleton in Hv. exists i, j.
      repeat split; [by apply band_start | by apply band_start | | done].
      intros [= -> ->]. by apply Hij.
  - intros (i & j & Hi & Hj & Hne & Hv). exists i. split.
    + apply list_elem_of_bind. exists j. split.
      * rewrite decide_False; [by apply list_elem_of_singleton|].
        intros [-> ->]. by apply Hne.
      * apply elem_of_seq. apply band_start in Hj. lia.
    + apply elem_of_seq. apply band_start in Hi. lia.
Qed.

Lemma elem_of_yield_row (b : Board) x y v :
  v ∈ yield_row b x y ↔ ∃ i, i ≠ y ∧ row b x !! i = Some v.
Proof.
  unfold yield_row. rewrite list_elem_of_join. split.
  - intros (l & Hv & Hl). apply elem_of_lookup_imap in Hl as (i & w & -> & Hw).
    case_decide; [by apply elem_of_nil in Hv|].
    apply list_elem_of_singleton in Hv as ->. eauto.
  - intros (i & Hi & Hv). exists [v]. split; [by apply list_elem_of_singleton|].
    apply elem_of_lookup_imap. exists i, v. by rewrite decide_False.
Qed.

Lemma elem_of_yield_column (b : Board) x y v :
  v ∈ yield_column b x y ↔ ∃ a, a < 9 ∧ a ≠ x ∧ item b a y = v.
Proof.
  unfold yield_column. rewrite list_elem_of_bind. split.
  - intros (a & Hv & Ha). apply elem_of_seq in Ha.
    case_decide; [by apply elem_of_nil in Hv|].
    apply list_elem_of_singleton in Hv. exists a. repeat split; [lia|done..].
  - intros (a & Ha & Hne & Hv). exists a. split; [|apply elem_of_seq; lia].
    rewrite decide_False by done. by apply list_elem_of_singleton.
Qed.

Lemma elem_of_all_others (b : Board) x y v :
  wf b → x < 9 → y < 9 →
  v ∈ _all_others b x y ↔ ∃ q, peer (x, y) q ∧ cell b q = v.
Proof.
  intros Hwf Hx Hy. unfold _all_others.
  rewrite !elem_of_app, elem_of_yield_box, elem_of_yield_row, elem_of_yield_column.
  unfold peer, in_grid, same_row, same_column, same_box, cell. split.
  - intros [(i & j & Hi & Hj & Hne & Hv) | [(j & Hne & Hv) | (a & Ha & Hne & Hv)]].
    + exists (i, j). simpl.
      repeat split; [by eapply band_lt | by eapply band_lt | done | | done].
      right; right. by split.
    + exists (x, j). simpl. pose proof (lookup_lt_Some _ _ _ Hv) as Hlt.
      rewrite row_length in Hlt by done.
      repeat split; [lia.. | congruence | by left | unfold item; by rewrite Hv].
    + exists (a, y). simpl. repeat split; [lia.. | congruence | by (right; left) | done].
  - intros ([x' y'] & ((Hx' & Hy') & Hne & Hgrp) & Hv). simpl in *.
    destruct (decide (x' = x)) as [->|Hxx].
    + right; left. exists y'. split; [congruence|].
      destruct (lookup_lt_is_Some_2 (row b x) y') as [w Hw].
      { rewrite row_length; done. }
      unfold item in Hv. rewrite Hw in Hv. simpl in Hv. by subst.
    + destruct (decide (y' = y)) as [->|Hyy].
      * right; right. by exists x'.
      * left. exists x', y'. destruct Hgrp as [?|[?|[? ?]]]; [done..|].
        repeat split; [done | done | congruence | done].
Qed.

(** ** [is_valid] *)

Section no_repeat.
Context {K : Type} (f : K → Z).

Lemma no_repeat_keys (s : gset Z) (ks : list K) :
  NoDup ks →
  no_repeat s (f <$> ks) = true ↔
    (∀ p, p ∈ ks → f p ≠ 0%Z → f p ∉ s) ∧
    (∀ p q, p ∈ ks → q ∈ ks → p ≠ q → f p ≠ 0%Z → f p ≠ f q).
Proof.
  intros Hnd. revert s. induction Hnd as [|k ks Hk Hnd IH]; intros s; simpl.
  { split; [|done]. intros _.
    split; [intros p Hp | intros p q Hp]; by apply elem_of_nil in Hp. }
  case_decide as Hz.
  - rewrite IH. split.
    + intros [H1 H2]. split.
      * intros p [->|Hp]%elem_of_cons; [done|]. by apply H1.
      * intros p q [->|Hp]%elem_of_cons [->|Hq]%elem_of_cons; try done.
        -- intros _ Hpz. by rewrite Hz.
        -- by apply H2.
    + intros [H1 H2]. split.
      * intros p Hp. apply H1. by right.
      * intros p q Hp Hq. apply H2; by right.
  - case_decide as Hs.
    + split; [done|]. intros [H1 _]. exfalso. by apply (H1 k); [left|..].
    + rewrite IH. split.
      * intros [H1 H2]. split.
        -- intros p [->|Hp]%elem_of_cons; [done|].
           intros Hpz. specialize (H1 p Hp Hpz).
           by apply not_elem_of_union in H1 as [_ ?].
        -- intros p q [->|Hp]%elem_of_cons [->|Hq]%elem_of_cons; try done.
           ++ intros _ _ Heq. specialize (H1 q Hq). rewrite <- Heq in H1.
              apply not_elem_of_union in H1 as [H1 _]; [|done].
              by apply H1, elem_of_singleton.
           ++ intros _ Hpz. specialize (H1 p Hp Hpz).
              apply not_elem_of_union in H1 as [H1 _].
              by apply not_elem_of_singleton in H1.
           ++ by apply H2.
      * intros [H1 H2]. split.
        -- intros p Hp Hpz. apply not_elem_of_union. split.
           ++ apply not_elem_of_singleton. apply H2; [by right | by left | | done].
              intros ->. done.
           ++ apply H1; [by right | done].
        -- intros p q Hp Hq. apply H2; by right.
Qed.
End no_repeat.

Lemma forallb_range (f : nat → bool) n :
  forallb f (seq 0 n) = true ↔ ∀ x, x < n → f x = true.
Proof.
  rewrite forallb_forall. split.
  - intros H x Hx. apply H, list_elem_of_In, elem_of_seq. lia.
  - intros H x Hx%list_elem_of_In%elem_of_seq. apply H. lia.
Qed.

Lemma second_pass_spec (b : Board) :
  second_pass b = true ↔ distinct_in same_row b.
Proof.
  unfold second_pass. rewrite forallb_range. split.
  - intros Hall [x y1] [x' y2] [Hx Hy1] [_ Hy2] Hne Hrow.
    unfold same_row in Hrow. simpl in Hx, Hy1, Hy2, Hrow. subst x'.
    unfold cell. simpl. specialize (Hall x Hx).
    apply (no_repeat_keys (item b x)) in Hall as [_ Hall]; [|apply NoDup_seq].
    apply Hall; [apply elem_of_seq; lia | apply elem_of_seq; lia | congruence].
  - intros Hd x Hx.
    apply (no_repeat_keys (item b x)); [apply NoDup_seq|]. split.
    + intros; apply not_elem_of_empty.
    + intros y1 y2 Hy1%elem_of_seq Hy2%elem_of_seq Hne.
      apply (Hd (x, y1) (x, y2)); unfold in_grid; simpl; [lia | lia | congruence | done].
Qed.

Lemma row_as_items (b : Board) x :
  wf b → x < 9 → row b x = (λ y, item b x y) <$> seq 0 9.
Proof.
  intros Hwf Hx. apply list_eq. intros i. rewrite list_lookup_fmap.
  destruct (decide (i < 9)) as [Hi|Hi].
  - rewrite lookup_seq_lt by done. simpl. unfold item.
    destruct (lookup_lt_is_Some_2 (row b x) i) as [w Hw]; [by rewrite row_length|].
    by rewrite Hw.
  - rewrite lookup_seq_ge by lia. apply lookup_ge_None. rewrite row_length; [lia|done..].
Qed.

Lemma rows_pass_second_pass (b : Board) : wf b → rows_pass b = second_pass b.
Proof.
  intros Hwf. unfold rows_pass, second_pass.
  assert (b = row b <$> seq 0 9) as Hb.
  { apply list_eq. intros i. rewrite list_lookup_fmap. destruct Hwf as [Hlen _].
    destruct (decide (i < 9)) as [Hi|Hi].
    - rewrite lookup_seq_lt by done. simpl. unfold row.
      destruct (lookup_lt_is_Some_2 b i) as [r Hr]; [lia|]. by rewrite Hr.
    - rewrite lookup_seq_ge by lia. apply lookup_ge_None. lia. }
  rewrite Hb at 1. clear Hb.
  assert (∀ l, Forall (λ x, x < 9) l →
    forallb (no_repeat ∅) (row b <$> l)
    = forallb (λ x, no_repeat ∅ ((λ y, item b x y) <$> seq 0 9)) l) as Hgen.
  { induction 1 as [|x l Hx _ IH]; [done|].
    rewrite fmap_cons. cbn [forallb]. rewrite IH. by rewrite row_as_items. }
  apply Hgen, Forall_forall. intros x Hx%elem_of_seq. lia.
Qed.

Lemma elem_of_box_cells bi bj (p : coord) :
  p ∈ box_cells (bi * 3) (bj * 3) ↔ p.1 / 3 = bi ∧ p.2 / 3 = bj.
Proof.
  unfold box_cells. rewrite list_elem_of_bind. split.
  - intros (k & Hp & Hk). apply list_elem_of_bind in Hp as (l & Hp & Hl).
    apply elem_of_seq in Hk, Hl.
    apply list_elem_of_singleton in Hp as ->. simpl. split; apply band_range; lia.
  - intros [H1 H2]. apply band_range in H1, H2. exists (p.1 - bi * 3). split; [|apply elem_of_seq; lia].
    apply list_elem_of_bind. exists (p.2 - bj * 3). split; [|apply elem_of_seq; lia].
    apply list_elem_of_singleton. destruct p as [x y]. simpl in *. f_equal; lia.
Qed.

Lemma NoDup_box_cells bi bj : bi < 3 → bj < 3 → NoDup (box_cells (bi * 3) (bj * 3)).
Proof.
  intros Hi Hj.
  assert (bi = 0 ∨ bi = 1 ∨ bi = 2) as [-> | [-> | ->]] by lia;
  assert (bj = 0 ∨ bj = 1 ∨ bj = 2) as [-> | [-> | ->]] by lia;
  compute_done.
Qed.

Lemma forallb_corners (f : nat → bool) :
  forallb f [0; 3; 6] = true ↔ ∀ bi, bi < 3 → f (bi * 3) = true.
Proof.
  simpl. rewrite !andb_true_iff. split.
  - intros (H0 & H1 & H2 & _) bi Hbi.
    assert (bi = 0 ∨ bi = 1 ∨ bi = 2) as [-> | [-> | ->]] by lia; done.
  - intros H. repeat split; [apply (H 0) | apply (H 1) | apply (H 2)]; lia.
Qed.

Lemma boxes_pass_spec (b : Board) :
  boxes_pass b = true ↔ distinct_in same_box b.
Proof.
  assert (boxes_pass b = true ↔ ∀ bi, bi < 3 → ∀ bj, bj < 3 →
            no_repeat ∅ (cell b <$> box_cells (bi * 3) (bj * 3)) = true) as ->.
  { unfold boxes_pass. rewrite forallb_corners.
    apply forall_proper; intros bi. apply forall_proper; intros Hbi.
    by rewrite forallb_corners. }
  split.
  - intros Hall p q [Hp1 Hp2] [Hq1 Hq2] Hne [Hs1 Hs2].
    assert (p.1 / 3 < 3) as H1 by (apply Nat.Div0.div_lt_upper_bound; lia).
    assert (p.2 / 3 < 3) as H2 by (apply Nat.Div0.div_lt_upper_bound; lia).
    specialize (Hall _ H1 _ H2).
    apply no_repeat_keys in Hall as [_ Hall]; [|by apply NoDup_box_cells].
    apply Hall; [by apply elem_of_box_cells | by apply elem_of_box_cells | done].
  - intros Hd bi Hbi bj Hbj.
    apply no_repeat_keys; [by apply NoDup_box_cells|]. split.
    + intros; apply not_elem_of_empty.
    + intros p q Hp Hq Hne.
      apply elem_of_box_cells in Hp as [Hp1 Hp2], Hq as [Hq1 Hq2].
      assert (∀ i bk, i / 3 = bk → bk < 3 → i < 9) as Hlt.
      { intros i bk Hi%band_range ?. lia. }
      apply Hd; [split; eauto | split; eauto | done | split; congruence].
Qed.

(** [is_valid] accepts exactly the boards without a repeated non-zero value
    in a row or in a box. *)
Lemma is_valid_spec (b : Board) :
  wf b → is_valid b = true ↔ distinct_in same_row b ∧ distinct_in same_box b.
Proof.
  intros Hwf. unfold is_valid. rewrite rows_pass_second_pass by done.
  rewrite !andb_true_iff, second_pass_spec, boxes_pass_spec. tauto.
Qed.

(** ** [find_all_possible] *)

Lemma find_all_possible_range (b : Board) x y v :
  v ∈ find_all_possible b x y → (1 ≤ v ≤ 9)%Z.
Proof.
  unfold find_all_possible. intros [_ Hv%elem_of_seqZ]%list_elem_of_filter. lia.
Qed.

Lemma elem_of_find_all_possible (b : Board) x y v :
  wf b → x < 9 → y < 9 →
  v ∈ find_all_possible b x y ↔
    (1 ≤ v ≤ 9)%Z ∧ ¬ ∃ q, peer (x, y) q ∧ cell b q ≠ 0%Z ∧ cell b q = v.
Proof.
  intros Hwf Hx Hy. unfold find_all_possible.
  rewrite list_elem_of_filter, elem_of_list_to_set, list_elem_of_filter.
  rewrite elem_of_all_others, elem_of_seqZ by done. split.
  - intros [Hno Hv]. split; [lia|]. intros (q & Hq & Hz & Heq).
    apply Hno. split; [lia|]. exists q. by split.
  - intros [Hv Hno]. split; [|lia]. intros (Hz & q & Hq & Heq).
    apply Hno. exists q. split; [done | split; [congruence | done]].
Qed.

(** C5: on an empty cell, [find_all_possible] yields exactly the digits 1
    to 9 that are not the non-zero value of a peer of the cell, the peers
    being the other cells of its row, of its column and of its box. *)
Theorem find_all_possible_legal (b : Board) x y v :
  wf b → x < 9 → y < 9 → item b x y = 0%Z →
  v ∈ find_all_possible b x y ↔
    (1 ≤ v ≤ 9)%Z ∧ ¬ ∃ q, peer (x, y) q ∧ cell b q ≠ 0%Z ∧ cell b q = v.
Proof. intros Hwf Hx Hy _. by apply elem_of_find_all_possible. Qed.

Lemma test_parse_board_wf : wf test_parse_board.
Proof. split; [reflexivity | repeat constructor]. Qed.

Lemma find_all_possible_legal_witness :
  4%Z ∈ find_all_possible test_parse_board 0 3 ↔
    (1 ≤ 4 ≤ 9)%Z ∧
    ¬ ∃ q, peer (0, 3) q ∧ cell test_parse_board q ≠ 0%Z ∧ cell test_parse_board q = 4%Z.
Proof.
  apply (find_all_possible_legal test_parse_board 0 3 4%Z);
    [exact test_parse_board_wf | lia | lia | reflexivity].
Defined.

(** The first scenario of the test suite. *)
Example test_parse : find_all_possible test_parse_board 0 3 = [4; 7; 8]%Z.
Proof. vm_compute. reflexivity. Qed.

(** The yield is duplicate free, so as a sequence it lists each legal value
    once. *)
Lemma find_all_possible_NoDup (b : Board) x y : NoDup (find_all_possible b x y).
Proof. apply NoDup_filter, NoDup_seqZ. Qed.

(** ** The scan *)

Lemma elem_of_cells (p : coord) : p ∈ cells ↔ in_grid p.
Proof.
  unfold cells, in_grid. rewrite list_elem_of_bind. split.
  - intros (x & Hp & Hx). apply list_elem_of_bind in Hp as (y & Hp & Hy).
    apply elem_of_seq in Hx, Hy. apply list_elem_of_singleton in Hp as ->. simpl. lia.
  - intros [Hx Hy]. exists p.1. split; [|apply elem_of_seq; lia].
    apply list_elem_of_bind. exists p.2. split; [|apply elem_of_seq; lia].
    apply list_elem_of_singleton. by destruct p.
Qed.

Lemma NoDup_cells : NoDup cells.
Proof. compute_done. Qed.

Lemma scan_cells_Some (b : Board) (cs : list coord) l :
  scan_cells b cs = Some l ↔
    l = entry_of b <$> filter (λ p, cell b p = 0%Z) cs ∧
    ∀ p, p ∈ cs → cell b p = 0%Z → find_all_possible b p.1 p.2 ≠ [].
Proof.
  revert l. induction cs as [|[x y] cs IH]; intros l; simpl.
  { split; [intros [= <-] | intros [-> _]; done].
    split; [done|]. intros p Hp. by apply elem_of_nil in Hp. }
  rewrite filter_cons. unfold cell at 1. simpl.
  destruct (decide (item b x y = 0%Z)) as [Hz|Hz].
  - destruct (find_all_possible b x y) as [|v ps] eqn:Hps.
    + split; [done|]. intros [_ Hall]. exfalso.
      apply (Hall (x, y)); [by left | done | done].
    + destruct (scan_cells b cs) as [l'|] eqn:Hscan; simpl.
      * specialize (IH l'). destruct IH as [[IH1 IH2] _]; [done|].
        split.
        -- intros [= <-]. split.
           ++ csimpl. unfold entry_of at 1. simpl. rewrite Hps. by rewrite IH1.
           ++ intros p [->|Hp]%elem_of_cons; [simpl; by rewrite Hps | by apply IH2].
        -- intros [-> _]. csimpl. unfold entry_of at 1. simpl. rewrite Hps.
           do 2 f_equal. by symmetry.
      * split; [done|]. intros [_ Hall].
        specialize (IH (entry_of b <$> filter (λ p, cell b p = 0%Z) cs)).
        destruct IH as [_ IH]. discriminate IH. split; [done|].
        intros p Hp. apply Hall. by right.
  - rewrite IH. split; intros [-> Hall]; (split; [done|]).
    + intros p [->|Hp]%elem_of_cons; [done | by apply Hall].
    + intros p Hp. apply Hall. by right.
Qed.

Lemma scan_Some (b : Board) l :
  scan b = Some l ↔
    l = entry_of b <$> filter (λ p, cell b p = 0%Z) cells ∧
    ∀ p, in_grid p → cell b p = 0%Z → find_all_possible b p.1 p.2 ≠ [].
Proof.
  unfold scan. rewrite scan_cells_Some.
  split; intros [-> Hall]; (split; [done|]); intros p Hp; apply Hall;
    by apply elem_of_cells.
Qed.

Lemma scan_entry (b : Board) l e :
  scan b = Some l → e ∈ l →
  in_grid e.1 ∧ cell b e.1 = 0%Z ∧ e.2 = find_all_possible b e.1.1 e.1.2 ∧ e.2 ≠ [].
Proof.
  intros [-> Hall]%scan_Some (p & -> & [Hz Hp]%list_elem_of_filter)%list_elem_of_fmap.
  apply elem_of_cells in Hp. simpl. eauto.
Qed.

Lemma scan_complete (b : Board) l p :
  scan b = Some l → in_grid p → cell b p = 0%Z → entry_of b p ∈ l.
Proof.
  intros [-> _]%scan_Some Hp Hz. apply list_elem_of_fmap_2, list_elem_of_filter.
  split; [done | by apply elem_of_cells].
Qed.

Lemma scan_NoDup (b : Board) l : scan b = Some l → NoDup l.*1.
Proof.
  intros [-> _]%scan_Some.
  assert (∀ cs, (entry_of b <$> cs).*1 = cs) as ->
    by (induction cs; csimpl; [done | by f_equal]).
  apply NoDup_filter, NoDup_cells.
Qed.

Lemma scan_length (b : Board) l : scan b = Some l → length l = empties b.
Proof. intros [-> _]%scan_Some. by rewrite length_fmap. Qed.

Lemma scan_nil_full (b : Board) : scan b = Some [] → full b.
Proof.
  intros Hscan p Hp Hz. pose proof (scan_complete _ _ _ Hscan Hp Hz) as Hin.
  by apply elem_of_nil in Hin.
Qed.

Lemma singles_of_entry (l : list possibles_entry) e :
  e ∈ singles_of l ↔ length e.2 = 1 ∧ e ∈ l.
Proof. unfold singles_of. by rewrite list_elem_of_filter. Qed.

Lemma singles_of_NoDup (l : list possibles_entry) :
  NoDup l.*1 → NoDup (singles_of l).*1.
Proof.
  unfold singles_of. induction l as [|e l IH]; [done|].
  rewrite fmap_cons, NoDup_cons. intros [Hnotin Hnd]. rewrite filter_cons.
  case_decide; [|by apply IH]. rewrite fmap_cons, NoDup_cons. split; [|by apply IH].
  intros (e' & Heq & [_ He']%list_elem_of_filter)%list_elem_of_fmap.
  apply Hnotin. apply list_elem_of_fmap. eauto.
Qed.

Lemma single_digit (b : Board) l e :
  scan b = Some l → e ∈ singles_of l → (1 ≤ hd 0%Z e.2 ≤ 9)%Z.
Proof.
  intros Hscan [Hlen He]%singles_of_entry.
  destruct (scan_entry _ _ _ Hscan He) as (_ & _ & Hps & _).
  destruct e.2 as [|v ps] eqn:Heq; [done|]. simpl.
  apply (find_all_possible_range b e.1.1 e.1.2). rewrite <- Hps. by left.
Qed.

(** Every single recorded by a scan is pending on the scanned board. *)
Lemma singles_pending (b : Board) l :
  scan b = Some l → Forall (pending b) (singles_of l).
Proof.
  intros Hscan. apply Forall_forall. intros e [Hlen He]%singles_of_entry.
  destruct (scan_entry _ _ _ Hscan He) as (Hg & Hz & Hps & _).
  repeat split; [apply Hg.. | done |].
  destruct e.2 as [|v ps] eqn:Heq; [done|]. simpl.
  assert (v ∈ find_all_possible b e.1.1 e.1.2) as Hv%find_all_possible_range
    by (rewrite <- Hps; by left).
  lia.
Qed.

(** ** Counting empty cells *)

Lemma filter_length_mono {A} (P Q : A → Prop)
    `{∀ x, Decision (P x)} `{∀ x, Decision (Q x)} (l : list A) :
  (∀ x, x ∈ l → P x → Q x) →
  length (filter P l) ≤ length (filter Q l) ∧
  ((∃ x, x ∈ l ∧ Q x ∧ ¬ P x) → length (filter P l) < length (filter Q l)).
Proof.
  induction l as [|a l IH]; intros Himp.
  { split; [done|]. intros (x & Hx & _). by apply elem_of_nil in Hx. }
  destruct IH as [IHle IHlt]; [intros x Hx; apply Himp; by right|].
  rewrite !filter_cons.
  destruct (decide (P a)) as [HP|HP].
  - rewrite decide_True by (apply Himp; [by left | done]). simpl. split; [lia|].
    intros (x & [->|Hx]%elem_of_cons & HQ & HnP); [done|].
    assert (length (filter P l) < length (filter Q l)) by (apply IHlt; eauto). lia.
  - destruct (decide (Q a)) as [HQ|HQ]; simpl.
    + split; [lia|]. intros _. lia.
    + split; [done|]. intros (x & [->|Hx]%elem_of_cons & HQx & HnP); [done|].
      apply IHlt; eauto.
Qed.

Lemma cell_set_item (b : Board) x y v (p : coord) :
  wf b → in_grid p →
  cell (set_item b x y v) p = if decide (p = (x, y)) then v else cell b p.
Proof.
  intros Hwf [Hp1 Hp2]. unfold cell. case_decide as Hp.
  - subst p. simpl in *. by apply item_set_item_eq.
  - apply item_set_item_ne. by destruct p.
Qed.

Lemma empties_set_item_le (b : Board) x y v :
  wf b → v ≠ 0%Z → empties (set_item b x y v) ≤ empties b.
Proof.
  intros Hwf Hv. unfold empties. apply filter_length_mono.
  intros p Hp%elem_of_cells. rewrite cell_set_item by done. by case_decide.
Qed.

Lemma empties_set_item_lt (b : Board) x y v :
  wf b → in_grid (x, y) → cell b (x, y) = 0%Z → v ≠ 0%Z →
  empties (set_item b x y v) < empties b.
Proof.
  intros Hwf Hg Hz Hv. unfold empties. apply filter_length_mono.
  - intros p Hp%elem_of_cells. rewrite cell_set_item by done. by case_decide.
  - exists (x, y). split; [by apply elem_of_cells|]. split; [done|].
    rewrite cell_set_item, decide_True by done. done.
Qed.

Lemma empties_le_81 (b : Board) : empties b ≤ 81.
Proof. unfold empties. etrans; [apply length_filter|]. by vm_compute. Qed.

Lemma empties_zero_full (b : Board) : empties b = 0 ↔ full b.
Proof.
  unfold empties, full. rewrite length_zero_iff_nil. split.
  - intros Hnil p Hp Hz.
    assert (p ∈ filter (λ p, cell b p = 0%Z) cells) as Hin
      by (apply list_elem_of_filter; split; [done | by apply elem_of_cells]).
    rewrite Hnil in Hin. by apply elem_of_nil in Hin.
  - intros Hfull. destruct (filter _ cells) as [|p l] eqn:Heq; [done|].
    assert (p ∈ filter (λ p, cell b p = 0%Z) cells) as [Hz Hp]%list_elem_of_filter
      by (rewrite Heq; by left).
    by apply Hfull in Hz; [|apply elem_of_cells].
Qed.

(** ** The propagation loop *)

Lemma extends_refl (b : Board) : extends b b.
Proof. by intros p _ _. Qed.

Lemma extends_trans (b1 b2 b3 : Board) :
  extends b1 b2 → extends b2 b3 → extends b1 b3.
Proof.
  intros H12 H23 p Hp Hz. rewrite <- (H12 p Hp Hz).
  apply H23; [done|]. by rewrite (H12 p Hp Hz).
Qed.

Lemma extends_set_item (b : Board) x y v :
  wf b → cell b (x, y) = 0%Z → extends b (set_item b x y v).
Proof.
  intros Hwf Hz p Hp Hnz. rewrite cell_set_item by done.
  case_decide; [by subst|done].
Qed.

Lemma pending_set_item (b : Board) x y v e :
  wf b → e.1 ≠ (x, y) → pending b e → pending (set_item b x y v) e.
Proof.
  intros Hwf Hne (Hg & Hz & Hv). repeat split; [apply Hg.. | | done].
  rewrite cell_set_item by done. by rewrite decide_False.
Qed.

(** What the loop over [singles] does to the board, when the singles are
    pending entries for pairwise different cells. *)
Lemma assign_singles_inv (b : Board) (ss : list possibles_entry) b' ok :
  wf b → NoDup ss.*1 → Forall (pending b) ss →
  assign_singles b ss = (b', ok) →
  wf b' ∧ extends b b' ∧
  (∀ p, in_grid p → p ∉ ss.*1 → cell b' p = cell b p) ∧
  empties b' ≤ empties b ∧
  (ss ≠ [] → empties b' < empties b) ∧
  (ok = true → ∀ e, e ∈ ss → cell b' e.1 = hd 0%Z e.2) ∧
  (ok = true → ss ≠ [] → is_valid b' = true).
Proof.
  revert b. induction ss as [|[[x y] ps] ss IH]; intros b Hwf Hnd Hpend Hrun.
  { simpl in Hrun. injection Hrun as <- <-.
    split_and!; [done | apply extends_refl | done | done | done | | done].
    intros _ e He. by apply elem_of_nil in He. }
  simpl in Hrun. rewrite fmap_cons in Hnd. apply NoDup_cons in Hnd as [Hnotin Hnd].
  apply Forall_cons in Hpend as [(Hg & Hz & Hv) Hpend]. simpl in Hg, Hz, Hv, Hnotin.
  set (b1 := set_item b x y (hd 0%Z ps)) in *.
  assert (wf b1) as Hwf1 by by apply wf_set_item.
  assert (extends b b1) as Hext1 by by apply extends_set_item.
  assert (empties b1 < empties b) as Hlt1 by by apply empties_set_item_lt.
  assert (∀ p, in_grid p → p ∉ (x, y) :: ss.*1 → cell b1 p = cell b p) as Hframe1.
  { intros p Hp Hnot. unfold b1. rewrite cell_set_item, decide_False; [done| |done..].
    intros ->. apply Hnot. by left. }
  destruct (is_valid b1) eqn:Hvalid.
  - assert (Forall (pending b1) ss) as Hpend1.
    { apply Forall_forall. intros e He. apply pending_set_item; [done| |].
      - intros Heq. apply Hnotin. rewrite <- Heq. by apply list_elem_of_fmap_2.
      - eapply Forall_forall in Hpend; eauto. }
    destruct (IH b1 Hwf1 Hnd Hpend1 Hrun) as (Hwf' & Hext & Hframe & Hle & Hlt & Hval & Hok).
    split_and!; [done | by eapply extends_trans | | lia | lia | |].
    + intros p Hp Hnot. rewrite fmap_cons in Hnot. simpl in Hnot.
      rewrite Hframe; [by apply Hframe1| done |].
      intros Hin. apply Hnot. by right.
    + intros Hoktrue e [->|He]%elem_of_cons; [|by apply Hval].
      simpl. rewrite Hframe by done. unfold b1.
      by rewrite cell_set_item, decide_True.
    + intros Hoktrue _. destruct ss as [|e ss]; [|by apply Hok].
      simpl in Hrun. by injection Hrun as <- <-.
  - injection Hrun as <- <-.
    split_and!; [done | done | | lia | done | done | done].
    intros p Hp Hnot. apply Hframe1; [done|]. by rewrite fmap_cons in Hnot.
Qed.

(** ** Reasoning about [solve] *)

Lemma try_candidates_cases (rec : Board → outcome Board) (b : Board) c ps :
  match try_candidates rec b c ps with
  | OutOfFuel => True
  | Returned None => ∀ i, i ∈ ps → rec (set_item b c.1 c.2 i) = Returned None
  | Returned (Some g) => ∃ i, i ∈ ps ∧ rec (set_item b c.1 c.2 i) = Returned (Some g)
  end.
Proof.
  induction ps as [|i ps IH]; simpl.
  { intros i Hi. by apply elem_of_nil in Hi. }
  destruct (rec (set_item b c.1 c.2 i)) as [|[g|]] eqn:Hrec; [done| |].
  - exists i. split; [by left | done].
  - destruct (try_candidates rec b c ps) as [|[g|]]; [done| |].
    + destruct IH as (j & Hj & Hg). exists j. split; [by right | done].
    + intros j [->|Hj]%elem_of_cons; [done | by apply IH].
Qed.

Lemma solve_loop_unfold (rec : Board → outcome Board) fuel (b : Board) :
  solve_loop rec (S fuel) b =
  match scan b with
  | None => Returned None
  | Some [] => Returned (Some b)
  | Some (((coordinates, possibles) :: _) as list_of_possibles) =>
      match singles_of list_of_possibles with
      | [] => try_candidates rec b coordinates possibles
      | singles =>
          match assign_singles b singles with
          | (b', true) => solve_loop rec fuel b'
          | (_, false) => Returned None
          end
      end
  end.
Proof. reflexivity. Qed.

Lemma solve_unfold depth fuel (b : Board) :
  solve depth fuel b = solve_loop (callee depth fuel) fuel b.
Proof. by destruct depth. Qed.

(** An induction principle that follows the control flow of [solve]: one
    case per way out of the loop body.  [I] is an invariant of the boards
    the loop runs on, [P b r] relates a board to the outcome of solving it. *)
Section solve_ind.
Context (I : Board → Prop) (P : Board → outcome Board → Prop).
Hypothesis P_fuel : ∀ b, I b → P b OutOfFuel.
Hypothesis P_dead : ∀ b, I b → scan b = None → P b (Returned None).
Hypothesis P_full : ∀ b, I b → scan b = Some [] → P b (Returned (Some b)).
Hypothesis P_invalid : ∀ b l b',
  I b → scan b = Some l → singles_of l ≠ [] →
  assign_singles b (singles_of l) = (b', false) → P b (Returned None).
Hypothesis P_propagate : ∀ b l b',
  I b → scan b = Some l → singles_of l ≠ [] →
  assign_singles b (singles_of l) = (b', true) →
  I b' ∧ ∀ r, P b' r → P b r.
Hypothesis P_exhausted : ∀ b c ps l,
  I b → scan b = Some ((c, ps) :: l) → singles_of ((c, ps) :: l) = [] →
  (∀ i, i ∈ ps → I (set_item b c.1 c.2 i) →
        P (set_item b c.1 c.2 i) (Returned None)) →
  P b (Returned None).
Hypothesis P_found : ∀ b c ps l i g,
  I b → scan b = Some ((c, ps) :: l) → singles_of ((c, ps) :: l) = [] →
  i ∈ ps →
  (I (set_item b c.1 c.2 i) → P (set_item b c.1 c.2 i) (Returned (Some g))) →
  P b (Returned (Some g)).

Lemma solve_loop_ind (rec : Board → outcome Board) :
  (∀ b, I b → P b (rec b)) →
  ∀ fuel b, I b → P b (solve_loop rec fuel b).
Proof.
  intros Hrec fuel. induction fuel as [|fuel IH]; intros b Hb.
  { by apply P_fuel. }
  rewrite solve_loop_unfold.
  destruct (scan b) as [[|[c ps] l]|] eqn:Hscan; [by apply P_full| |by apply P_dead].
  destruct (singles_of ((c, ps) :: l)) as [|e ss] eqn:Hsingles.
  - pose proof (try_candidates_cases rec b c ps) as Hcases.
    destruct (try_candidates rec b c ps) as [|[g|]].
    + by apply P_fuel.
    + destruct Hcases as (i & Hi & Hg).
      eapply P_found; [done..|]. intros Hchild. rewrite <- Hg. by apply Hrec.
    + eapply P_exhausted; [done..|]. intros i Hi Hchild.
      rewrite <- (Hcases i Hi). by apply Hrec.
  - destruct (assign_singles b (e :: ss)) as [b' [|]] eqn:Hassign.
    + destruct (P_propagate b ((c, ps) :: l) b') as [Hb' Hstep];
        [done | done | by rewrite Hsingles | by rewrite Hsingles |].
      apply Hstep. by apply IH.
    + eapply (P_invalid b ((c, ps) :: l));
        [done | done | by rewrite Hsingles | by rewrite Hsingles].
Qed.

Lemma solve_ind depth fuel b : I b → P b (solve depth fuel b).
Proof.
  revert b. induction depth as [|depth IH]; intros b Hb; rewrite solve_unfold.
  - apply solve_loop_ind; [|done]. intros b' Hb'. by apply P_fuel.
  - apply solve_loop_ind; [|done]. intros b' Hb'. by apply IH.
Qed.
End solve_ind.

(** ** Termination *)

(** The cell the search branches on is an empty cell of the grid, and its
    candidates are its legal values. *)
Lemma scan_first (b : Board) c ps l :
  scan b = Some ((c, ps) :: l) →
  in_grid c ∧ cell b c = 0%Z ∧ ps = find_all_possible b c.1 c.2.
Proof.
  intros Hscan. destruct (scan_entry b _ (c, ps) Hscan) as (? & ? & ? & _); [by left|done].
Qed.

Lemma candidate_nonzero (b : Board) c ps l i :
  scan b = Some ((c, ps) :: l) → i ∈ ps → i ≠ 0%Z.
Proof.
  intros (_ & _ & ->)%scan_first Hi%find_all_possible_range. lia.
Qed.

Lemma candidate_empties (b : Board) c ps l i :
  wf b → scan b = Some ((c, ps) :: l) → i ∈ ps →
  empties (set_item b c.1 c.2 i) < empties b.
Proof.
  intros Hwf Hscan Hi. destruct (scan_first _ _ _ _ Hscan) as (Hg & Hz & _).
  apply empties_set_item_lt; [done | by destruct c | by destruct c |].
  by eapply candidate_nonzero.
Qed.

(** One propagation pass over the singles of a scan. *)
Lemma propagate_inv (b : Board) l b' ok :
  wf b → scan b = Some l → singles_of l ≠ [] →
  assign_singles b (singles_of l) = (b', ok) →
  wf b' ∧ extends b b' ∧ empties b' < empties b ∧
  (ok = true → is_valid b' = true) ∧
  (ok = true → ∀ e, e ∈ singles_of l → cell b' e.1 = hd 0%Z e.2) ∧
  (ok = true → ∀ p, in_grid p → cell b p = 0%Z →
     cell b' p = 0%Z ∨ (1 ≤ cell b' p ≤ 9)%Z).
Proof.
  intros Hwf Hscan Hne Hrun.
  destruct (assign_singles_inv b (singles_of l) b' ok)
    as (Hwf' & Hext & Hframe & _ & Hlt & Hval & Hok); [done| | |done|].
  - by apply singles_of_NoDup, scan_NoDup with b.
  - by apply singles_pending.
  - split_and!; auto.
    intros -> p Hp Hz.
    destruct (decide (p ∈ (singles_of l).*1)) as [Hin|Hnotin].
    + apply list_elem_of_fmap in Hin as (e & -> & He). right.
      rewrite Hval by done. by eapply single_digit.
    + left. by rewrite Hframe.
Qed.

Lemma solve_loop_total (rec : Board → outcome Board) fuel (b : Board) :
  wf b → empties b < fuel →
  (∀ b', wf b' → empties b' < empties b → ∃ r, rec b' = Returned r) →
  ∃ r, solve_loop rec fuel b = Returned r.
Proof.
  revert b. induction fuel as [|fuel IH]; intros b Hwf Hfuel Hrec; [lia|].
  rewrite solve_loop_unfold.
  destruct (scan b) as [[|[c ps] l]|] eqn:Hscan; [by eexists| |by eexists].
  destruct (singles_of ((c, ps) :: l)) as [|e ss] eqn:Hsingles.
  - pose proof (try_candidates_cases rec b c ps) as Hcases.
    assert (∀ ps', ps' ⊆ ps → ∃ r, try_candidates rec b c ps' = Returned r) as Hall.
    { induction ps' as [|i ps' IHps]; intros Hsub; simpl; [by eexists|].
      destruct (Hrec (set_item b c.1 c.2 i)) as [r Hr].
      - by apply wf_set_item.
      - eapply candidate_empties; [done..|]. apply Hsub. by left.
      - rewrite Hr. destruct r; [by eexists|]. apply IHps.
        intros j Hj. apply Hsub. by right. }
    by apply Hall.
  - destruct (assign_singles b (e :: ss)) as [b' [|]] eqn:Hassign; [|by eexists].
    destruct (propagate_inv b ((c, ps) :: l) b' true) as (Hwf' & _ & Hlt & _);
      [done | done | by rewrite Hsingles | by rewrite Hsingles |].
    apply IH; [done | lia |]. intros b'' Hwf'' Hlt''. apply Hrec; [done | lia].
Qed.

Lemma solve_returns depth fuel (b : Board) :
  wf b → empties b ≤ depth → empties b < fuel →
  ∃ r, solve depth fuel b = Returned r.
Proof.
  revert b. induction depth as [|depth IH]; intros b Hwf Hdepth Hfuel;
    rewrite solve_unfold; (apply solve_loop_total; [done | done |]).
  - intros b' _ Hlt. lia.
  - intros b' Hwf' Hlt. apply IH; [done | lia | lia].
Qed.

(** C8: on a well-formed board [solve] returns.  The nesting of recursive
    calls below the first activation never exceeds the number of empty cells
    of the input, which is at most 81, and no activation runs its loop more
    often than that number plus one. *)
Theorem solve_total (b : Board) :
  wf b →
  empties b ≤ 81 ∧
  ∀ depth fuel, empties b ≤ depth → empties b < fuel →
    ∃ r, solve depth fuel b = Returned r.
Proof.
  intros Hwf. split; [apply empties_le_81|].
  intros depth fuel Hdepth Hfuel. by apply solve_returns.
Qed.

Lemma solve_total_witness :
  empties test_parse_board ≤ 81 ∧
  ∀ depth fuel, empties test_parse_board ≤ depth → empties test_parse_board < fuel →
    ∃ r, solve depth fuel test_parse_board = Returned r.
Proof. apply (solve_total test_parse_board). exact test_parse_board_wf. Defined.

(** ** Writing a legal value keeps the board acceptable *)

Lemma distinct_in_set_item (R : coord → coord → Prop) (b : Board) x y i :
  wf b → in_grid (x, y) → distinct_in R b →
  (∀ q, in_grid q → q ≠ (x, y) → R (x, y) q ∨ R q (x, y) → cell b q ≠ i) →
  distinct_in R (set_item b x y i).
Proof.
  intros Hwf Hg Hd Hfree p q Hp Hq Hne HR. rewrite !cell_set_item by done.
  destruct (decide (p = (x, y))) as [->|Hpx], (decide (q = (x, y))) as [->|Hqx].
  - done.
  - intros _ Heq. by apply (Hfree q); [| |left|].
  - intros _ Heq. by apply (Hfree p); [| |right|].
  - by apply Hd.
Qed.

Lemma legal_value_free (b : Board) c i q :
  wf b → in_grid c → i ∈ find_all_possible b c.1 c.2 →
  in_grid q → q ≠ c →
  same_row c q ∨ same_column c q ∨ same_box c q → cell b q ≠ i.
Proof.
  intros Hwf [Hc1 Hc2] Hi Hq Hne HR Heq.
  apply elem_of_find_all_possible in Hi as [Hrange Hno]; [|done..].
  apply Hno. exists q. split; [|split; [lia | done]].
  destruct c. by split_and!.
Qed.

Lemma legal_value_valid (b : Board) c i :
  wf b → in_grid c → is_valid b = true →
  i ∈ find_all_possible b c.1 c.2 →
  is_valid (set_item b c.1 c.2 i) = true.
Proof.
  destruct c as [x y]. simpl. intros Hwf Hc Hvalid Hi.
  apply is_valid_spec in Hvalid as [Hrows Hboxes]; [|done].
  apply is_valid_spec; [by apply wf_set_item|].
  split; (apply distinct_in_set_item; [done..|]); intros q Hq Hne HR;
    (apply (legal_value_free b (x, y)); [done..|]).
  - left. unfold same_row in *. simpl in *. by destruct HR.
  - right; right. unfold same_box in *. simpl in *.
    destruct HR as [[??]|[??]]; by split.
Qed.

(** ** What a returned grid is *)

Lemma solve_result depth fuel (b g : Board) :
  wf b → solve depth fuel b = Returned (Some g) →
  wf g ∧ full g ∧ extends b g ∧ (is_valid b = true → is_valid g = true) ∧
  (∀ p, in_grid p → cell b p = 0%Z → (1 ≤ cell g p ≤ 9)%Z).
Proof.
  intros Hwf. revert g.
  apply (solve_ind wf (λ b r, ∀ g, r = Returned (Some g) →
    wf g ∧ full g ∧ extends b g ∧ (is_valid b = true → is_valid g = true) ∧
    (∀ p, in_grid p → cell b p = 0%Z → (1 ≤ cell g p ≤ 9)%Z)));
    [..|done]; clear b Hwf.
  - done.
  - done.
  - intros b Hwf Hscan g [= <-].
    split_and!; [done | by apply scan_nil_full | apply extends_refl | done |].
    intros p Hp Hz. by destruct (scan_nil_full b Hscan p Hp).
  - done.
  - intros b l b' Hwf Hscan Hne Hrun.
    destruct (propagate_inv b l b' true) as (Hwf' & Hext & _ & Hval & _ & Hdig); [done..|].
    split; [done|]. intros r Hr g ->.
    destruct (Hr g eq_refl) as (? & ? & Hext' & Hv & Hdig').
    split_and!; [done | done | by eapply extends_trans | auto |].
    intros p Hp Hz. destruct (Hdig eq_refl p Hp Hz) as [Hz'|Hd]; [by apply Hdig'|].
    rewrite (Hext' p Hp); [done | lia].
  - done.
  - intros b c ps l i g Hwf Hscan _ Hi Hchild g' [= <-].
    destruct (scan_first _ _ _ _ Hscan) as (Hc & Hz & ->).
    destruct (Hchild (wf_set_item _ _ _ _ Hwf) g eq_refl) as (? & ? & Hext & Hv & Hdig).
    assert (extends b (set_item b c.1 c.2 i)) as Hext0
      by (apply extends_set_item; [done | by destruct c]).
    split_and!; [done | done | by eapply extends_trans | |].
    + intros Hvalid. by apply Hv, legal_value_valid.
    + intros p Hp Hzp. destruct (decide (p = (c.1, c.2))) as [->|Hne].
      * rewrite (Hext (c.1, c.2) Hp); rewrite cell_set_item, decide_True by done.
        -- by eapply find_all_possible_range.
        -- apply find_all_possible_range in Hi. lia.
      * apply Hdig; [done|]. by rewrite cell_set_item, decide_False.
Qed.

(** ** Soundness *)

Lemma all_ones_wf : wf all_ones.
Proof. split; [reflexivity | repeat constructor]. Qed.

(** C1, as stated, fails: [solve] hands a filled grid straight back, also
    when a row of it repeats a value. *)
Lemma filled_clash_is_returned :
  ¬ (∀ (b g : Board) depth fuel,
       wf b → solve depth fuel b = Returned (Some g) →
       full g ∧ is_valid g = true).
Proof.
  intros Hclaim.
  destruct (Hclaim all_ones all_ones 0 1 all_ones_wf) as [_ Hvalid];
    [by vm_compute | by vm_compute in Hvalid].
Qed.

(** C1, amended: when [is_valid] accepts the board [solve] is called on,
    every grid [solve] returns has all 81 cells non-zero and is accepted by
    [is_valid]. *)
Theorem solve_sound depth fuel (b g : Board) :
  wf b → is_valid b = true →
  solve depth fuel b = Returned (Some g) →
  full g ∧ is_valid g = true.
Proof.
  intros Hwf Hvalid Hrun.
  destruct (solve_result depth fuel b g Hwf Hrun) as (_ & Hfull & _ & Hv & _). auto.
Qed.

Lemma solve_sound_witness :
  full test_parse_solution ∧ is_valid test_parse_solution = true.
Proof.
  apply (solve_sound 81 82 test_parse_board test_parse_solution);
    [exact test_parse_board_wf | by vm_compute | by vm_compute].
Defined.

(** ** Writes go to empty cells *)

(** The board on which the loop over [singles] writes one of its entries is
    the board left by the entries before it. *)
Lemma assign_singles_app (b : Board) (pre rest : list possibles_entry) :
  assign_singles b (pre ++ rest) =
  match assign_singles b pre with
  | (b1, true) => assign_singles b1 rest
  | (b1, false) => (b1, false)
  end.
Proof.
  revert b. induction pre as [|[[x y] ps] pre IH]; intros b; [done|].
  simpl. destruct (is_valid (set_item b x y (hd 0%Z ps))); [apply IH | done].
Qed.

Lemma single_target_empty (b : Board) l pre e post b1 ok :
  wf b → scan b = Some l → singles_of l = pre ++ e :: post →
  assign_singles b pre = (b1, ok) → in_grid e.1 ∧ cell b1 e.1 = 0%Z.
Proof.
  intros Hwf Hscan Hsplit Hrun.
  pose proof (singles_of_NoDup l (scan_NoDup _ _ Hscan)) as Hnd.
  pose proof (singles_pending b l Hscan) as Hpend.
  rewrite Hsplit in Hnd, Hpend. rewrite fmap_app, fmap_cons in Hnd.
  apply NoDup_app in Hnd as (Hpre & Hdisj & _).
  apply Forall_app in Hpend as [Hpend [(Hg & Hz & _) _]%Forall_cons].
  destruct (assign_singles_inv b pre b1 ok) as (_ & _ & Hframe & _); [done..|].
  split; [done|]. rewrite Hframe; [done..|].
  intros Hin. by apply (Hdisj e.1); [|left].
Qed.

(** C9: every write of [solve] goes to a cell that holds 0 at that moment,
    the writes of a propagation pass as well as the write of a candidate;
    so a returned grid keeps every cell that was non-zero in the input. *)
Theorem solve_keeps_given_cells (b : Board) :
  wf b →
  (∀ l pre e post b1,
     scan b = Some l → singles_of l = pre ++ e :: post →
     assign_singles b pre = (b1, true) → cell b1 e.1 = 0%Z) ∧
  (∀ c ps l, scan b = Some ((c, ps) :: l) → cell b c = 0%Z) ∧
  (∀ depth fuel g, solve depth fuel b = Returned (Some g) → extends b g).
Proof.
  intros Hwf. split_and!.
  - intros l pre e post b1 Hscan Hsplit Hrun.
    by destruct (single_target_empty b l pre e post b1 true).
  - intros c ps l Hscan. by destruct (scan_first _ _ _ _ Hscan) as (_ & ? & _).
  - intros depth fuel g Hrun.
    by destruct (solve_result depth fuel b g Hwf Hrun) as (_ & _ & ? & _).
Qed.

Lemma solve_keeps_given_cells_witness :
  (∀ l pre e post b1,
     scan test_parse_board = Some l → singles_of l = pre ++ e :: post →
     assign_singles test_parse_board pre = (b1, true) → cell b1 e.1 = 0%Z) ∧
  (∀ c ps l, scan test_parse_board = Some ((c, ps) :: l) →
     cell test_parse_board c = 0%Z) ∧
  (∀ depth fuel g, solve depth fuel test_parse_board = Returned (Some g) →
     extends test_parse_board g).
Proof. apply (solve_keeps_given_cells test_parse_board). exact test_parse_board_wf. Defined.

(** ** What [is_valid] checks *)

Lemma column_clash_wf : wf column_clash.
Proof. split; [reflexivity | repeat constructor]. Qed.

(** C2 fails on the code: the second loop of [is_valid] reads
    [items[x][y]] with [x] outside and [y] inside, which walks the rows a
    second time; a value repeated only within a column goes unnoticed. *)
Theorem is_valid_misses_columns :
  wf column_clash ∧ repeated_in same_column column_clash ∧
  is_valid column_clash = true.
Proof.
  split_and!; [exact column_clash_wf | | by vm_compute].
  exists (0, 0), (3, 0). unfold in_grid, same_column, cell. simpl.
  split_and!; [lia.. | done | done | done | done].
Qed.

(** What [is_valid] does decide: it returns [False] exactly when a row or
    a box holds a repeated non-zero value. *)
Lemma is_valid_false_iff (b : Board) :
  wf b →
  is_valid b = false ↔ repeated_in same_row b ∨ repeated_in same_box b.
Proof.
  intros Hwf. rewrite <- not_true_iff_false, is_valid_spec by done.
  assert (∀ R, (∀ p q, Decision (R p q)) → distinct_in R b ↔ ¬ repeated_in R b) as Hneg.
  { intros R HR. split.
    - intros Hd (p & q & Hp & Hq & Hne & Hpq & Hz & Heq). by apply (Hd p q).
    - intros Hno p q Hp Hq Hne Hpq Hz Heq. apply Hno. by exists p, q. }
  assert (∀ R, (∀ p q, Decision (R p q)) → Decision (repeated_in R b)) as Hdec.
  { intros R HR.
    destruct (decide (Exists (λ p, Exists (λ q,
        p ≠ q ∧ R p q ∧ cell b p ≠ 0%Z ∧ cell b p = cell b q) cells) cells))
      as [Hex|Hex]; [left|right].
    - apply Exists_exists in Hex as (p & Hp & Hex).
      apply Exists_exists in Hex as (q & Hq & Hex).
      apply elem_of_cells in Hp, Hq. exists p, q. tauto.
    - intros (p & q & Hp & Hq & Hrest). apply Hex.
      apply Exists_exists. exists p. split; [by apply elem_of_cells|].
      apply Exists_exists. exists q. split; [by apply elem_of_cells|]. tauto. }
  assert (∀ p q, Decision (same_row p q)) as Hrow by (intros; unfold same_row; apply _).
  assert (∀ p q, Decision (same_box p q)) as Hbox by (intros; unfold same_box; apply _).
  rewrite !Hneg by done.
  destruct (Hdec _ Hrow), (Hdec _ Hbox); tauto.
Qed.

(** ** Completeness *)

(** A sub-board of a grid without repeats has no repeats either. *)
Lemma extends_distinct (R : coord → coord → Prop) (b c : Board) :
  extends b c → distinct_in R c → distinct_in R b.
Proof.
  intros Hext Hd p q Hp Hq Hne HR Hz Heq.
  assert (cell b q ≠ 0%Z) as Hzq by congruence.
  apply (Hd p q); [done..| |].
  - by rewrite (Hext p Hp Hz).
  - rewrite (Hext p Hp Hz), (Hext q Hq Hzq). done.
Qed.

Lemma completion_valid (b c : Board) : wf b → completion b c → is_valid b = true.
Proof.
  intros Hwf (_ & _ & Hext & Hrow & _ & Hbox).
  apply is_valid_spec; [done|]. split; by eapply extends_distinct.
Qed.

(** The value a completion gives to an empty cell is legal there. *)
Lemma completion_legal (b c : Board) p :
  wf b → completion b c → in_grid p → cell b p = 0%Z →
  cell c p ∈ find_all_possible b p.1 p.2.
Proof.
  intros Hwf (Hwfc & Hdigits & Hext & Hrow & Hcol & Hbox) Hp Hz.
  apply elem_of_find_all_possible; [done | apply Hp.. |].
  split; [by apply Hdigits|].
  intros (q & (Hq & Hne & HR) & Hzq & Heq).
  assert (p = (p.1, p.2)) as Hpp by by destruct p. rewrite <- Hpp in Hne, HR.
  assert (cell c p ≠ 0%Z) as Hcz by (specialize (Hdigits p Hp); lia).
  assert (cell c p = cell c q) as Hpq by by rewrite (Hext q Hq Hzq).
  destruct HR as [HR|[HR|HR]];
    [eapply (Hrow p q) | eapply (Hcol p q) | eapply (Hbox p q)]; done.
Qed.

Lemma completion_set_item (b c : Board) p :
  wf b → completion b c → in_grid p →
  completion (set_item b p.1 p.2 (cell c p)) c.
Proof.
  intros Hwf (Hwfc & Hdigits & Hext & Hcons) Hp.
  split_and!; [done | done | | done].
  intros q Hq. rewrite cell_set_item by done.
  case_decide as Hqp; [|by apply Hext]. intros _. subst q. by destruct p.
Qed.

Lemma completion_scan (b c : Board) :
  wf b → completion b c → ∃ l, scan b = Some l.
Proof.
  intros Hwf Hc. eexists. apply scan_Some. split; [done|].
  intros p Hp Hz Hnil. pose proof (completion_legal b c p Hwf Hc Hp Hz) as Hin.
  rewrite Hnil in Hin. by apply elem_of_nil in Hin.
Qed.

(** A single is forced to the value of the completion. *)
Lemma completion_single (b c : Board) l e :
  wf b → completion b c → scan b = Some l → e ∈ singles_of l →
  in_grid e.1 ∧ hd 0%Z e.2 = cell c e.1.
Proof.
  intros Hwf Hc Hscan [Hlen He]%singles_of_entry.
  destruct (scan_entry _ _ _ Hscan He) as (Hg & Hz & Hps & _).
  split; [done|].
  pose proof (completion_legal b c e.1 Hwf Hc Hg Hz) as Hin. rewrite <- Hps in Hin.
  destruct e.2 as [|v [|]]; [done| |done].
  by apply list_elem_of_singleton in Hin.
Qed.

Lemma assign_singles_completion (b c : Board) (ss : list possibles_entry) :
  wf b → completion b c →
  Forall (λ e, in_grid e.1 ∧ hd 0%Z e.2 = cell c e.1) ss →
  ∃ b', assign_singles b ss = (b', true) ∧ wf b' ∧ completion b' c.
Proof.
  revert b. induction ss as [|[[x y] ps] ss IH]; intros b Hwf Hc Hall.
  { by exists b. }
  apply Forall_cons in Hall as [[Hg Hv] Hall]. simpl in Hg, Hv. simpl.
  pose proof (completion_set_item b c (x, y) Hwf Hc Hg) as Hc1.
  pose proof (wf_set_item b x y (cell c (x, y)) Hwf) as Hwf1.
  simpl in Hc1. rewrite Hv.
  rewrite (completion_valid _ c Hwf1 Hc1). by apply IH.
Qed.

(** [solve] does not report a board with a completion as unsolvable. *)
Lemma solve_no_false_failure depth fuel (b c : Board) :
  wf b → completion b c → solve depth fuel b ≠ Returned None.
Proof.
  intros Hwf Hc.
  apply (solve_ind (λ b, wf b ∧ completion b c) (λ _ r, r ≠ Returned None));
    [..|done]; clear b Hwf Hc.
  - done.
  - intros b [Hwf Hc] Hscan. destruct (completion_scan b c Hwf Hc). congruence.
  - done.
  - intros b l b' [Hwf Hc] Hscan Hne Hrun.
    destruct (assign_singles_completion b c (singles_of l)) as (b'' & Hrun' & _);
      [done | done | | congruence].
    apply Forall_forall. intros e He. by eapply completion_single.
  - intros b l b' [Hwf Hc] Hscan Hne Hrun.
    destruct (assign_singles_completion b c (singles_of l)) as (b'' & Hrun' & Hwf' & Hc');
      [done | done | | ].
    { apply Forall_forall. intros e He. by eapply completion_single. }
    assert (b'' = b') as -> by congruence. done.
  - intros b c0 ps l [Hwf Hc] Hscan _ Hall _.
    destruct (scan_first _ _ _ _ Hscan) as (Hg & Hz & ->).
    apply (Hall (cell c c0)); [by apply completion_legal | | done].
    split; [by apply wf_set_item | by apply completion_set_item].
  - done.
Qed.

(** C4: on a board with a completion that satisfies the row, column and box
    constraints, [solve] returns a grid. *)
Theorem solve_complete (b c : Board) :
  wf b → completion b c →
  ∀ depth fuel, empties b ≤ depth → empties b < fuel →
    ∃ g, solve depth fuel b = Returned (Some g).
Proof.
  intros Hwf Hc depth fuel Hdepth Hfuel.
  destruct (solve_returns depth fuel b Hwf Hdepth Hfuel) as [[g|] Hrun]; [by exists g|].
  by destruct (solve_no_false_failure depth fuel b c Hwf Hc).
Qed.

Lemma consistent_check_sound (c : Board) :
  consistent_check c = true → consistent c.
Proof.
  unfold consistent_check. rewrite bool_decide_eq_true. intros Hpairs.
  assert (∀ R : coord → coord → Prop,
    (∀ p q, R p q → same_row p q ∨ same_column p q ∨ same_box p q) →
    distinct_in R c) as Hd.
  { intros R HR p q Hp%elem_of_cells Hq%elem_of_cells Hne Hpq Hz.
    eapply Forall_forall in Hpairs; [|exact Hp].
    eapply Forall_forall in Hpairs; [|exact Hq]. auto. }
  unfold consistent. split_and!; apply Hd; auto.
Qed.

Lemma completion_check_sound (b c : Board) :
  wf c → completion_check b c = true → completion b c.
Proof.
  unfold completion_check. rewrite andb_true_iff, bool_decide_eq_true.
  intros Hwf [Hcells Hcons%consistent_check_sound].
  assert (∀ p, in_grid p →
    (1 ≤ cell c p ≤ 9)%Z ∧ (cell b p ≠ 0%Z → cell c p = cell b p)) as Hc.
  { intros p Hp%elem_of_cells. by eapply Forall_forall in Hcells. }
  split_and!; [done | intros p Hp; by apply Hc | intros p Hp; by apply Hc | done].
Qed.

Lemma test_parse_completion : completion test_parse_board test_parse_solution.
Proof.
  apply completion_check_sound; [|by vm_compute].
  split; [reflexivity | repeat constructor].
Qed.

Lemma solve_complete_witness :
  ∃ g, solve 81 82 test_parse_board = Returned (Some g).
Proof.
  apply (solve_complete test_parse_board test_parse_solution
           test_parse_board_wf test_parse_completion 81 82).
  - apply empties_le_81.
  - pose proof (empties_le_81 test_parse_board). lia.
Defined.

(** ** Boards that cannot be solved *)




Lemma dead_corner_wf : wf dead_corner.
Proof. split; [reflexivity | repeat constructor]. Qed.



(** ** The propagation pass *)

(** When the loop over [singles] is left normally, the board holds all the
    writes, and the check after each of them accepted. *)
Lemma assign_singles_accepts (b : Board) (ss : list possibles_entry) b' :
  assign_singles b ss = (b', true) →
  b' = write_singles b ss ∧
  ∀ k, 0 < k ≤ length ss → is_valid (write_singles b (take k ss)) = true.
Proof.
  revert b. induction ss as [|[[x y] ps] ss IH]; intros b Hrun.
  { simpl in Hrun. injection Hrun as <-. split; [done|]. simpl. lia. }
  simpl in Hrun. destruct (is_valid (set_item b x y (hd 0%Z ps))) eqn:Hvalid; [|done].
  destruct (IH _ Hrun) as [-> Hprefix]. split; [done|].
  intros [|k] Hk; [lia|]. simpl in Hk |- *.
  destruct k as [|k]; [done|]. apply (Hprefix (S k)). lia.
Qed.

(** The first check that rejects is the first one that would: the checks
    after the writes before it accepted. *)
Lemma assign_singles_first_reject (b : Board) (ss : list possibles_entry) b' :
  assign_singles b ss = (b', false) →
  ∃ pre e post, ss = pre ++ e :: post ∧
    b' = write_singles b (pre ++ [e]) ∧
    (∀ k, 0 < k ≤ length pre → is_valid (write_singles b (take k pre)) = true) ∧
    is_valid b' = false.
Proof.
  revert b. induction ss as [|[[x y] ps] ss IH]; intros b Hrun; [done|].
  simpl in Hrun. destruct (is_valid (set_item b x y (hd 0%Z ps))) eqn:Hvalid.
  - destruct (IH _ Hrun) as (pre & e & post & -> & -> & Hprefix & Hreject).
    exists (((x, y), ps) :: pre), e, post. split_and!; [done | done | | done].
    intros [|k] Hk; [lia|]. simpl in Hk |- *.
    destruct k as [|k]; [done|]. apply (Hprefix (S k)). lia.
  - injection Hrun as <-. exists [], ((x, y), ps), ss.
    split_and!; [done | done | simpl; lia | done].
Qed.

(** The split of [assign_singles_first_reject] is the only one. *)
Lemma first_reject_unique (b : Board) (pre1 pre2 : list possibles_entry) e1 e2 post1 post2 :
  pre1 ++ e1 :: post1 = pre2 ++ e2 :: post2 →
  (∀ k, 0 < k ≤ length pre1 → is_valid (write_singles b (take k pre1)) = true) →
  is_valid (write_singles b (pre1 ++ [e1])) = false →
  (∀ k, 0 < k ≤ length pre2 → is_valid (write_singles b (take k pre2)) = true) →
  is_valid (write_singles b (pre2 ++ [e2])) = false →
  pre1 = pre2 ∧ e1 = e2 ∧ post1 = post2.
Proof.
  intros Heq H1 R1 H2 R2.
  assert (∀ (pa pb : list possibles_entry) ea eb qa qb,
    pa ++ ea :: qa = pb ++ eb :: qb → length pa < length pb →
    take (S (length pa)) pb = pa ++ [ea]) as Hshort.
  { intros pa pb ea eb qa qb Hab Hlen.
    assert (take (S (length pa)) (pa ++ ea :: qa) = pa ++ [ea]) as Ha.
    { rewrite (take_app_ge pa) by lia. replace (S (length pa) - length pa) with 1 by lia.
      done. }
    rewrite Hab, take_app_le in Ha by lia. done. }
  destruct (decide (length pre1 = length pre2)) as [Hlen|Hlen].
  - apply app_inj_1 in Heq as [-> Heq]; [|done]. by injection Heq as -> ->.
  - exfalso. destruct (decide (length pre1 < length pre2)).
    + pose proof (H2 (S (length pre1)) ltac:(lia)) as Hok.
      rewrite (Hshort _ _ _ _ _ _ Heq) in Hok by done. congruence.
    + pose proof (H1 (S (length pre2)) ltac:(lia)) as Hok.
      rewrite (Hshort _ _ _ _ _ _ (eq_sym Heq)) in Hok by lia. congruence.
Qed.

(** When the loop over [singles] is left through [return None], the board
    holds the singles up to the one whose check failed and none after it;
    the checks after the earlier writes accepted. *)
Lemma assign_singles_stop (b : Board) (ss : list possibles_entry) b' :
  wf b → NoDup ss.*1 → Forall (pending b) ss →
  assign_singles b ss = (b', false) →
  ∃ pre e post, ss = pre ++ e :: post ∧ is_valid b' = false ∧
    (∀ e', e' ∈ pre ++ [e] → cell b' e'.1 = hd 0%Z e'.2) ∧
    (∀ e', e' ∈ post → cell b' e'.1 = 0%Z) ∧
    b' = write_singles b (pre ++ [e]) ∧
    (∀ k, 0 < k ≤ length pre → is_valid (write_singles b (take k pre)) = true).
Proof.
  revert b. induction ss as [|[[x y] ps] ss IH]; intros b Hwf Hnd Hpend Hrun; [done|].
  simpl in Hrun. rewrite fmap_cons in Hnd. apply NoDup_cons in Hnd as [Hnotin Hnd].
  apply Forall_cons in Hpend as [(Hg & Hz & Hv) Hpend]. simpl in Hg, Hz, Hv, Hnotin.
  set (b1 := set_item b x y (hd 0%Z ps)) in *.
  assert (wf b1) as Hwf1 by by apply wf_set_item.
  assert (cell b1 (x, y) = hd 0%Z ps) as Hhere
    by (unfold b1; by rewrite cell_set_item, decide_True).
  assert (Forall (pending b1) ss) as Hpend1.
  { apply Forall_forall. intros e He. apply pending_set_item; [done| |].
    - intros Heq. apply Hnotin. rewrite <- Heq. by apply list_elem_of_fmap_2.
    - eapply Forall_forall in Hpend; eauto. }
  destruct (is_valid b1) eqn:Hvalid.
  - destruct (IH b1 Hwf1 Hnd Hpend1 Hrun)
      as (pre & e & post & -> & Hinv & Hset & Hunset & Hb' & Hprefix).
    exists (((x, y), ps) :: pre), e, post.
    split_and!; [done | done | | done | done |].
    + intros e' [->|He']%elem_of_cons; [|by apply Hset]. simpl.
      destruct (assign_singles_inv b1 (pre ++ e :: post) b' false)
        as (_ & _ & Hframe & _); [done..|].
      by rewrite Hframe.
    + intros [|k] Hk; [lia|]. simpl in Hk |- *.
      destruct k as [|k]; [done|]. apply (Hprefix (S k)). lia.
  - injection Hrun as <-. exists [], ((x, y), ps), ss.
    split_and!; [done | done | | | done | simpl; lia].
    + intros e' ->%list_elem_of_singleton. done.
    + intros e' He'. eapply Forall_forall in Hpend1; [|done]. apply Hpend1.
Qed.

(** C6, as stated, fails: [is_valid] is called after each write, and the
    first failing call leaves the loop.  On [early_exit_board] the pass
    writes (0,0) and (0,1), fails, and never writes the single at (8,8). *)
Lemma singles_left_unassigned :
  ¬ (∀ (b : Board) l b' ok,
       wf b → scan b = Some l → singles_of l ≠ [] →
       assign_singles b (singles_of l) = (b', ok) →
       ∀ e, e ∈ singles_of l → cell b' e.1 = hd 0%Z e.2).
Proof.
  intros Hclaim.
  set (l := default [] (scan early_exit_board)).
  set (r := assign_singles early_exit_board (singles_of l)).
  assert (cell r.1 (8, 8) = 9%Z) as Hcell; [|vm_compute in Hcell; discriminate Hcell].
  apply (Hclaim early_exit_board l r.1 r.2 ltac:(split; [reflexivity | repeat constructor])
           ltac:(by vm_compute) ltac:(by vm_compute) (surjective_pairing r)
           ((8, 8), [9%Z])).
  vm_compute. do 2 right. by left.
Qed.

(** C6, amended: in a pass with at least one single the singles are written
    one at a time in scan order and [is_valid] is called after each write.
    If every call accepts, that is, the board after each of the writes is
    accepted, all singles of the scan hold their forced value and the loop
    scans again.  At the first call that rejects, [solve] returns [None]:
    the boards after the earlier writes were accepted, the singles up to
    the rejected one are written, the later ones are still empty. *)
Theorem propagation_pass (b : Board) l b' ok :
  wf b → scan b = Some l → singles_of l ≠ [] →
  assign_singles b (singles_of l) = (b', ok) →
  if ok then
    (∀ e, e ∈ singles_of l → cell b' e.1 = hd 0%Z e.2) ∧
    is_valid b' = true ∧
    (∀ depth fuel,
       solve depth (S fuel) b = solve_loop (callee depth (S fuel)) fuel b') ∧
    b' = write_singles b (singles_of l) ∧
    (∀ k, 0 < k ≤ length (singles_of l) →
       is_valid (write_singles b (take k (singles_of l))) = true)
  else
    is_valid b' = false ∧
    (∀ depth fuel, solve depth (S fuel) b = Returned None) ∧
    ∃ pre e post, singles_of l = pre ++ e :: post ∧
      (∀ e', e' ∈ pre ++ [e] → cell b' e'.1 = hd 0%Z e'.2) ∧
      (∀ e', e' ∈ post → cell b' e'.1 = 0%Z) ∧
      b' = write_singles b (pre ++ [e]) ∧
      (∀ k, 0 < k ≤ length pre →
         is_valid (write_singles b (take k pre)) = true).
Proof.
  intros Hwf Hscan Hne Hrun.
  assert (∀ depth fuel, solve depth (S fuel) b =
            if ok then solve_loop (callee depth (S fuel)) fuel b'
            else Returned None) as Hsolve.
  { intros depth fuel. rewrite solve_unfold, solve_loop_unfold, Hscan.
    destruct l as [|[c ps] l]; [done|].
    destruct (singles_of ((c, ps) :: l)) as [|e ss]; [done|]. by rewrite Hrun. }
  destruct ok.
  - destruct (propagate_inv b l b' true) as (_ & _ & _ & Hvalid & Hset & _); [done..|].
    destruct (assign_singles_accepts _ _ _ Hrun) as [Hb' Hprefix].
    split_and!; auto.
  - destruct (assign_singles_stop b (singles_of l) b')
      as (pre & e & post & Hsplit & Hinv & Hset & Hunset & Hb' & Hprefix);
      [done| | |done|].
    + by apply singles_of_NoDup, scan_NoDup with b.
    + by apply singles_pending.
    + split_and!; [done | done |]. by exists pre, e, post.
Qed.

Lemma early_exit_board_wf : wf early_exit_board.
Proof. split; [reflexivity | repeat constructor]. Qed.

Lemma propagation_pass_witness :
  is_valid early_exit_pass = false ∧
  (∀ depth fuel, solve depth (S fuel) early_exit_board = Returned None) ∧
  ∃ pre e post, singles_of early_exit_scan = pre ++ e :: post ∧
    (∀ e', e' ∈ pre ++ [e] → cell early_exit_pass e'.1 = hd 0%Z e'.2) ∧
    (∀ e', e' ∈ post → cell early_exit_pass e'.1 = 0%Z) ∧
    early_exit_pass = write_singles early_exit_board (pre ++ [e]) ∧
    (∀ k, 0 < k ≤ length pre →
       is_valid (write_singles early_exit_board (take k pre)) = true).
Proof.
  apply (propagation_pass early_exit_board early_exit_scan early_exit_pass false
           early_exit_board_wf); by vm_compute.
Defined.

(** ** The store of row objects *)

Lemma store_write_length h b x y v :
  length (Store.write h b x y v) = length h.
Proof. unfold Store.write. destruct (b !! x); [apply length_alter | done]. Qed.

Lemma store_write_frame h (b : list nat) x y v a :
  a ∉ b → Store.write h b x y v !! a = h !! a.
Proof.
  intros Ha. unfold Store.write. destruct (b !! x) as [a'|] eqn:Hx; [|done].
  apply list_lookup_alter_ne. intros ->. by apply Ha, list_elem_of_lookup_2 with x.
Qed.

Lemma store_read_ext h h' (b : list nat) :
  (∀ a, a ∈ b → h' !! a = h !! a) → Store.read h' b = Store.read h b.
Proof.
  intros Hsame. unfold Store.read. apply list_fmap_ext.
  intros i a Ha. by rewrite Hsame by by eapply list_elem_of_lookup_2.
Qed.

Lemma store_read_length h (b : list nat) : length (Store.read h b) = length b.
Proof. unfold Store.read. by rewrite length_fmap. Qed.

(** A write through a board object without shared rows changes one cell of
    its contents. *)
Lemma store_read_write h (b : list nat) x y v :
  NoDup b →
  Store.read (Store.write h b x y v) b = set_item (Store.read h b) x y v.
Proof.
  intros Hnd. apply list_eq. intros j. unfold set_item.
  rewrite list_lookup_alter. unfold Store.read. rewrite !list_lookup_fmap.
  unfold Store.write. destruct (b !! j) as [aj|] eqn:Hj; simpl.
  - destruct (b !! x) as [ax|] eqn:Hx.
    + case_decide as Hjx.
      * subst j. assert (ax = aj) as -> by congruence.
        rewrite list_lookup_alter_eq. simpl. by destruct (h !! aj).
      * rewrite list_lookup_alter_ne; [done|].
        intros ->. apply Hjx. by eapply NoDup_lookup.
    + case_decide; [congruence | done].
  - case_decide; [subst; by rewrite Hj | done].
Qed.

Lemma store_valid_mono h h' (b : list nat) :
  length h ≤ length h' → Store.valid h b → Store.valid h' b.
Proof. intros Hlen Hb a Ha. specialize (Hb a Ha). lia. Qed.

(** [deepcopy] of a board object without shared rows appends a copy of each
    row to the store and returns the new addresses. *)
Lemma copy_rows_fresh (memo : gmap nat nat) h (rows : list nat) :
  Store.valid h rows → NoDup rows → (∀ a, a ∈ rows → memo !! a = None) →
  Store.copy_rows memo h rows
  = (h ++ Store.read h rows, seq (length h) (length rows)).
Proof.
  revert memo h. induction rows as [|a rows IH]; intros memo h Hvalid Hnd Hmemo.
  { simpl. by rewrite app_nil_r. }
  apply NoDup_cons in Hnd as [Hnotin Hnd]. simpl.
  rewrite Hmemo by by left.
  assert (Store.valid h rows) as Hvalid' by (intros a' Ha'; apply Hvalid; by right).
  rewrite IH; [| |done|].
  - rewrite length_app. simpl. rewrite Nat.add_1_r. f_equal.
    rewrite <- app_assoc. simpl. do 2 f_equal.
    apply store_read_ext. intros a' Ha'. apply lookup_app_l. by apply Hvalid'.
  - eapply store_valid_mono; [|done]. rewrite length_app. lia.
  - intros a' Ha'. rewrite lookup_insert_ne; [|by intros ->].
    apply Hmemo. by right.
Qed.

Lemma deepcopy_fresh h (b : list nat) :
  Store.valid h b → NoDup b →
  Store.deepcopy h b = (h ++ Store.read h b, seq (length h) (length b)).
Proof. intros Hvalid Hnd. by apply copy_rows_fresh. Qed.

Lemma read_fresh_copy h (rows : Board) :
  Store.read (h ++ rows) (seq (length h) (length rows)) = rows.
Proof.
  apply list_eq. intros j. unfold Store.read. rewrite list_lookup_fmap.
  destruct (decide (j < length rows)) as [Hj|Hj].
  - rewrite lookup_seq_lt by done. simpl.
    rewrite lookup_app_r by lia. replace (length h + j - length h) with j by lia.
    destruct (lookup_lt_is_Some_2 rows j Hj) as [r Hr]. by rewrite Hr.
  - rewrite lookup_seq_ge by lia. simpl. symmetry. apply lookup_ge_None. lia.
Qed.

(** ** The solver on the store computes what the solver on values does *)

Lemma store_assign_singles_refines h (b : list nat) ss :
  NoDup b →
  assign_singles (Store.read h b) ss
  = (Store.read (Store.assign_singles h b ss).1 b, (Store.assign_singles h b ss).2) ∧
  length (Store.assign_singles h b ss).1 = length h ∧
  ∀ a, a ∉ b → (Store.assign_singles h b ss).1 !! a = h !! a.
Proof.
  intros Hnd. revert h. induction ss as [|[[x y] ps] ss IH]; intros h; [done|].
  simpl. rewrite <- store_read_write by done.
  destruct (is_valid (Store.read (Store.write h b x y (hd 0%Z ps)) b)).
  - destruct (IH (Store.write h b x y (hd 0%Z ps))) as (Heq & Hlen & Hframe).
    split_and!; [done | by rewrite Hlen, store_write_length |].
    intros a Ha. by rewrite Hframe, store_write_frame.
  - simpl. split_and!; [done | apply store_write_length |].
    intros a Ha. by apply store_write_frame.
Qed.

Section store_refinement.
Context (rec_s : list (list Z) → list nat → list (list Z) * outcome (list nat)).
Context (rec_p : Board → outcome Board).
Hypothesis rec_refines : ∀ h b,
  Store.valid h b → NoDup b → Store.refines h b (rec_s h b) (rec_p (Store.read h b)).

Lemma store_try_candidates_refines h (b : list nat) c ps :
  Store.valid h b → NoDup b →
  try_candidates rec_p (Store.read h b) c ps
  = Store.contents (Store.try_candidates rec_s h b c ps).1
                   (Store.try_candidates rec_s h b c ps).2 ∧
  length h ≤ length (Store.try_candidates rec_s h b c ps).1 ∧
  ∀ a, a < length h → (Store.try_candidates rec_s h b c ps).1 !! a = h !! a.
Proof.
  intros Hvalid Hnd. revert h Hvalid.
  induction ps as [|i ps IH]; intros h Hvalid; [done|].
  simpl. rewrite deepcopy_fresh by done.
  set (h1 := h ++ Store.read h b).
  set (cl := seq (length h) (length b)).
  set (h2 := Store.write h1 cl c.1 c.2 i).
  assert (length h1 = length h + length b) as Hlen1
    by (unfold h1; by rewrite length_app, store_read_length).
  assert (NoDup cl) as Hndcl by apply NoDup_seq.
  assert (∀ a, a ∈ cl ↔ length h ≤ a < length h + length b) as Hcl
    by (intros a; apply elem_of_seq).
  assert (length h2 = length h1) as Hlen2 by apply store_write_length.
  assert (Store.valid h2 cl) as Hvalid2.
  { intros a Ha%Hcl. lia. }
  assert (Store.read h2 cl = set_item (Store.read h b) c.1 c.2 i) as Hread2.
  { unfold h2. rewrite store_read_write by done. f_equal.
    unfold h1, cl. rewrite <- (store_read_length h b). apply read_fresh_copy. }
  destruct (rec_refines h2 cl Hvalid2 Hndcl) as (Hpure & Hgrow & Hframe).
  assert (length h ≤ length (rec_s h2 cl).1) as Hgrow' by lia.
  assert (∀ a, a < length h → (rec_s h2 cl).1 !! a = h !! a) as Hold.
  { intros a Ha. assert (a ∉ cl) as Hnot by (rewrite Hcl; lia).
    rewrite Hframe; [|lia | done].
    unfold h2. rewrite store_write_frame by done. by apply lookup_app_l. }
  rewrite Hread2 in Hpure. rewrite Hpure.
  destruct (rec_s h2 cl) as [h3 [|[ret|]]]; simpl in *; [done | done |].
  assert (Store.read h3 b = Store.read h b) as Hsame.
  { apply store_read_ext. intros a Ha. apply Hold. by apply Hvalid. }
  destruct (IH h3) as (Heq & Hlen & Hframe3).
  { eapply store_valid_mono; [|done]. done. }
  rewrite Hsame in Heq. split_and!; [done | lia |].
  intros a Ha. rewrite Hframe3 by lia. by apply Hold.
Qed.

Lemma store_solve_loop_refines fuel h (b : list nat) :
  Store.valid h b → NoDup b →
  Store.refines h b (Store.solve_loop rec_s fuel h b)
                    (solve_loop rec_p fuel (Store.read h b)).
Proof.
  intros Hvalid Hnd. revert h Hvalid.
  induction fuel as [|fuel IH]; intros h Hvalid; [by split_and!|].
  rewrite solve_loop_unfold. cbn [Store.solve_loop].
  destruct (scan (Store.read h b)) as [[|[c ps] l]|]; [by split_and! | | by split_and!].
  destruct (singles_of ((c, ps) :: l)) as [|e ss].
  - destruct (store_try_candidates_refines h b c ps) as (Heq & Hlen & Hframe); [done..|].
    split_and!; [done | done | auto].
  - destruct (store_assign_singles_refines h b (e :: ss) Hnd) as (Heq & Hlen & Hframe).
    rewrite Heq.
    destruct (Store.assign_singles h b (e :: ss)) as [h' [|]]; simpl in *.
    + destruct (IH h') as (Heq' & Hlen' & Hframe').
      { eapply store_valid_mono; [|done]. lia. }
      split_and!; [done | lia |].
      intros a Ha Hnot. rewrite Hframe' by (done || lia). by apply Hframe.
    + split_and!; [done | simpl; lia | auto].
Qed.
End store_refinement.

(** The run on the store returns what the solver on values returns on the
    contents of its argument, and it changes no object that existed before
    the call other than the rows of its argument. *)
Lemma store_solve_refines depth fuel h (b : list nat) :
  Store.valid h b → NoDup b →
  Store.refines h b (Store.solve depth fuel h b) (solve depth fuel (Store.read h b)).
Proof.
  revert h b. induction depth as [|depth IH]; intros h b Hvalid Hnd;
    rewrite solve_unfold; cbn [Store.solve];
    (apply store_solve_loop_refines; [|done..]).
  - intros h' b' _ _. by split_and!.
  - intros h' b' Hvalid' Hnd'. by apply IH.
Qed.

(** ** Branches work on copies *)

(** C7: the copy made for a candidate has the contents of the board, lives
    at addresses that did not exist before, and making it changes no object.
    The whole loop over the candidates, recursive calls included, leaves
    the rows of the board (and every other object that existed before)
    as they were; hence each branch starts from the same board contents. *)
Theorem branches_leave_board_unchanged depth fuel h (b : list nat) c ps :
  Store.valid h b → NoDup b →
  (Store.read (Store.deepcopy h b).1 (Store.deepcopy h b).2 = Store.read h b ∧
   (∀ a, a ∈ (Store.deepcopy h b).2 → length h ≤ a) ∧
   (∀ a, a < length h → (Store.deepcopy h b).1 !! a = h !! a)) ∧
  (Store.read (Store.try_candidates (Store.solve depth fuel) h b c ps).1 b
   = Store.read h b ∧
   (∀ a, a < length h →
      (Store.try_candidates (Store.solve depth fuel) h b c ps).1 !! a = h !! a) ∧
   Store.contents (Store.try_candidates (Store.solve depth fuel) h b c ps).1
                  (Store.try_candidates (Store.solve depth fuel) h b c ps).2
   = try_candidates (solve depth fuel) (Store.read h b) c ps).
Proof.
  intros Hvalid Hnd. split.
  - rewrite deepcopy_fresh by done. simpl. split_and!.
    + rewrite <- (store_read_length h b). apply read_fresh_copy.
    + intros a Ha%elem_of_seq. lia.
    + intros a Ha. by apply lookup_app_l.
  - destruct (store_try_candidates_refines (Store.solve depth fuel) (solve depth fuel)
                (store_solve_refines depth fuel) h b c ps Hvalid Hnd)
      as (Heq & _ & Hframe).
    split_and!; [|done|done].
    apply store_read_ext. intros a Ha. apply Hframe. by apply Hvalid.
Qed.

Lemma branches_leave_board_unchanged_witness :
  let h := test_parse_board in
  let b := seq 0 9 in
  (Store.read (Store.deepcopy h b).1 (Store.deepcopy h b).2 = Store.read h b ∧
   (∀ a, a ∈ (Store.deepcopy h b).2 → length h ≤ a) ∧
   (∀ a, a < length h → (Store.deepcopy h b).1 !! a = h !! a)) ∧
  (Store.read (Store.try_candidates (Store.solve 81 82) h b (0, 2) [2; 6; 7]%Z).1 b
   = Store.read h b ∧
   (∀ a, a < length h →
      (Store.try_candidates (Store.solve 81 82) h b (0, 2) [2; 6; 7]%Z).1 !! a = h !! a) ∧
   Store.contents (Store.try_candidates (Store.solve 81 82) h b (0, 2) [2; 6; 7]%Z).1
                  (Store.try_candidates (Store.solve 81 82) h b (0, 2) [2; 6; 7]%Z).2
   = try_candidates (solve 81 82) (Store.read h b) (0, 2) [2; 6; 7]%Z).
Proof.
  apply (branches_leave_board_unchanged 81 82 test_parse_board (seq 0 9) (0, 2) [2; 6; 7]%Z).
  - intros a Ha%elem_of_seq. simpl. lia.
  - apply NoDup_seq.
Defined.

(** ** No roll-back on failure *)

(** C10: [solve] writes the singles into the rows of the caller's board and
    does not undo the writes when it gives up.  Run on a store that holds
    [early_exit_board] it returns [None], and the board then holds 9 in the
    cells (0,0) and (0,1), which were empty before the call. *)
Theorem solve_failure_keeps_writes :
  ∃ h', Store.solve 81 82 early_exit_board (seq 0 9) = (h', Returned None) ∧
        Store.read early_exit_board (seq 0 9) = early_exit_board ∧
        Store.read h' (seq 0 9) ≠ early_exit_board ∧
        cell early_exit_board (0, 0) = 0%Z ∧
        cell (Store.read h' (seq 0 9)) (0, 0) = 9%Z ∧
        cell early_exit_board (0, 1) = 0%Z ∧
        cell (Store.read h' (seq 0 9)) (0, 1) = 9%Z.
Proof.
  eexists. split; [vm_compute; reflexivity|].
  split_and!; by vm_compute.
Qed.

(** ** The column slip reaches [solve] *)

(** In a completion, a cell whose row already holds every other digit is
    forced. *)
Lemma row_forces_sound (b c : Board) x y v :
  completion b c → x < 9 → y < 9 → row_forces b x y v = true →
  cell c (x, y) = v.
Proof.
  intros (_ & Hdigits & Hext & Hrow & _) Hx Hy Hforce.
  unfold row_forces in Hforce. rewrite bool_decide_eq_true in Hforce.
  assert (in_grid (x, y)) as Hp by done.
  eapply Forall_forall in Hforce as [Heq|Hex];
    [done| |apply elem_of_seqZ; specialize (Hdigits _ Hp); lia].
  exfalso. apply Exists_exists in Hex as (y' & Hy'%elem_of_seq & Hne & Hitem).
  assert (in_grid (x, y')) as Hq by (split; simpl; lia).
  assert (cell b (x, y') ≠ 0%Z) as Hz.
  { unfold cell. simpl. rewrite Hitem. specialize (Hdigits _ Hp). lia. }
  apply (Hrow (x, y) (x, y')); [done | done | congruence | done | |].
  - specialize (Hdigits _ Hp). lia.
  - rewrite (Hext _ Hq Hz). unfold cell at 2. simpl. by rewrite Hitem.
Qed.

Lemma column_slip_board_wf : wf column_slip_board.
Proof. split; [reflexivity | repeat constructor]. Qed.

(** The board breaks no constraint, it has no valid completion, and [solve]
    returns a grid for it: both singles of column 3 are written, and the
    repeated 7 passes [is_valid]. *)
Lemma column_slip_reaches_solve :
  consistent column_slip_board ∧
  (∀ c, ¬ completion column_slip_board c) ∧
  solve 81 82 column_slip_board = Returned (Some column_slip_result) ∧
  is_valid column_slip_result = true ∧
  repeated_in same_column column_slip_result.
Proof.
  split_and!.
  - apply consistent_check_sound. by vm_compute.
  - intros c Hc.
    assert (cell c (0, 3) = 7%Z) as H0
      by (apply (row_forces_sound column_slip_board c); [done | lia.. | by vm_compute]).
    assert (cell c (6, 3) = 7%Z) as H6
      by (apply (row_forces_sound column_slip_board c); [done | lia.. | by vm_compute]).
    destruct Hc as (_ & _ & _ & _ & Hcol & _).
    apply (Hcol (0, 3) (6, 3)); unfold in_grid, same_column; simpl;
      [lia | lia | done | done | lia | congruence].
  - by vm_compute.
  - by vm_compute.
  - exists (0, 3), (6, 3). unfold in_grid, same_column, cell. simpl.
    split_and!; [lia.. | done | done | done | done].
Qed.

(** ** The budgets of the model do not influence the result *)

Lemma try_candidates_mono (rec rec' : Board → outcome Board) (b : Board) c ps r :
  (∀ b' r', rec b' = Returned r' → rec' b' = Returned r') →
  try_candidates rec b c ps = Returned r →
  try_candidates rec' b c ps = Returned r.
Proof.
  intros Hrec. induction ps as [|i ps IH]; simpl; [done|].
  destruct (rec (set_item b c.1 c.2 i)) as [|o] eqn:Hi; [done|].
  rewrite (Hrec _ _ Hi). by destruct o.
Qed.

Lemma solve_loop_mono (rec rec' : Board → outcome Board) fuel fuel' (b : Board) r :
  (∀ b' r', rec b' = Returned r' → rec' b' = Returned r') →
  fuel ≤ fuel' →
  solve_loop rec fuel b = Returned r → solve_loop rec' fuel' b = Returned r.
Proof.
  intros Hrec. revert fuel' b.
  induction fuel as [|fuel IH]; intros fuel' b Hle; [done|].
  destruct fuel' as [|fuel']; [lia|]. rewrite !solve_loop_unfold.
  destruct (scan b) as [[|[c ps] l]|]; [done| |done].
  destruct (singles_of ((c, ps) :: l)) as [|e ss].
  - by apply try_candidates_mono.
  - destruct (assign_singles b (e :: ss)) as [b' [|]]; [|done].
    apply IH. lia.
Qed.

(** A run that returns keeps its result when it is given more room. *)
Lemma solve_mono depth depth' fuel fuel' (b : Board) r :
  depth ≤ depth' → fuel ≤ fuel' →
  solve depth fuel b = Returned r → solve depth' fuel' b = Returned r.
Proof.
  intros Hdepth Hfuel. revert depth' Hdepth b r.
  induction depth as [|depth IH]; intros depth' Hdepth b r; rewrite !solve_unfold;
    (apply solve_loop_mono; [|done]).
  - done.
  - destruct depth' as [|depth']; [lia|]. simpl. intros b' r'. apply IH. lia.
Qed.

(** So the value [solve] returns is determined by the board. *)
Lemma solve_deterministic depth depth' fuel fuel' (b : Board) r r' :
  solve depth fuel b = Returned r → solve depth' fuel' b = Returned r' → r = r'.
Proof.
  intros H1 H2.
  apply (solve_mono _ (depth `max` depth') _ (fuel `max` fuel')) in H1, H2; [|lia..].
  congruence.
Qed.

(** ** Scenarios of the specification *)

(** A value twice in row 0 is rejected. *)
Example is_valid_row_clash :
  is_valid (set_item (set_item column_clash 3 0 0) 0 5 5) = false.
Proof. by vm_compute. Qed.

(** The board of [test_invalid] has no repeated value; [is_valid] accepts
    it, as the test asserts. *)
Example test_invalid :
  is_valid [ [5; 0; 0; 0; 7; 0; 0; 0; 0];
             [3; 4; 0; 1; 5; 0; 0; 0; 7];
             [0; 9; 0; 0; 3; 6; 0; 0; 0];
             [6; 0; 0; 0; 2; 1; 0; 0; 9];
             [2; 0; 4; 9; 8; 7; 1; 0; 0];
             [0; 1; 0; 0; 4; 5; 0; 0; 0];
             [0; 0; 0; 0; 0; 3; 0; 2; 6];
             [0; 0; 0; 0; 0; 0; 8; 0; 0];
             [9; 0; 0; 0; 0; 0; 3; 4; 0] ]%Z = true.
Proof. by vm_compute. Qed.

(** One cell short of complete: one pass fills it and the grid is returned. *)
Example solve_last_cell :
  solve 0 2 (set_item test_parse_solution 4 4 0) = Returned (Some test_parse_solution).
Proof. by vm_compute. Qed.

(** A complete grid is returned as it is, without any pass. *)
Example solve_complete_grid :
  solve 0 1 test_parse_solution = Returned (Some test_parse_solution).
Proof. by vm_compute. Qed.

(** The board of [test_parse] is solved. *)
Example solve_test_parse_board :
  solve 81 82 test_parse_board = Returned (Some test_parse_solution).
Proof. by vm_compute. Qed.

(** ** Text: lines and their normal form *)

Lemma replace_empty (old : ascii) (s : str) :
  replace old [] s = filter (λ c, c ≠ old) s.
Proof.
  unfold replace. induction s as [|c s IH]; [done|]. csimpl. rewrite filter_cons, IH.
  destruct (decide (c = old)); simpl; case_decide; done.
Qed.

Lemma replace_single (old new : ascii) (s : str) :
  replace old [new] s = (λ c, if decide (c = old) then new else c) <$> s.
Proof.
  unfold replace. induction s as [|c s IH]; [done|]. csimpl. rewrite IH.
  by destruct (decide (c = old)).
Qed.

Lemma normalize_alt (line : str) :
  normalize line
  = (λ c, if decide (c = "."%char) then "0"%char else c)
      <$> filter (λ c, c ≠ " "%char) (strip line).
Proof. unfold normalize. by rewrite replace_empty, replace_single. Qed.

Lemma split_lines_cons (line t : str) :
  "010"%char ∉ line →
  split_lines (line ++ "010"%char :: t) = line :: split_lines t.
Proof.
  induction line as [|c line IH]; intros Hnl; [done|].
  cbn [app split_lines].
  rewrite decide_False by (intros ->; apply Hnl; by left).
  rewrite IH; [done|]. intros Hin. apply Hnl. by right.
Qed.

(** The text of a value from 0 to 9 is one character, no white space, that
    reads back as the value once a dot is turned into a zero. *)
Lemma dot_or_num_digit (v : Z) :
  (0 ≤ v ≤ 9)%Z →
  ∃ c, _dot_or_num v = [c] ∧ isspace c = false ∧ c ≠ " "%char ∧ c ≠ "010"%char ∧
       int_of_char (if decide (c = "."%char) then "0"%char else c) = Some v.
Proof.
  intros Hv.
  assert (v = 0 ∨ v = 1 ∨ v = 2 ∨ v = 3 ∨ v = 4 ∨ v = 5 ∨ v = 6 ∨ v = 7 ∨ v = 8 ∨ v = 9)%Z
    as [->|[->|[->|[->|[->|[->|[->|[->|[->| ->]]]]]]]]] by lia;
    (eexists; split; [vm_compute; reflexivity|]; by vm_compute).
Qed.

Lemma row_text_normal (r : list Z) :
  digit_row r →
  ("010"%char ∉ row_text r) ∧
  normalize (row_text r) ≠ [] ∧
  length (normalize (row_text r)) = 9 ∧
  mapM int_of_char (normalize (row_text r)) = Some r.
Proof.
  intros [Hlen Hdigits].
  destruct r as [|v1 [|v2 [|v3 [|v4 [|v5 [|v6 [|v7 [|v8 [|v9 [|]]]]]]]]]]; try done.
  repeat match goal with
  | H : Forall _ (_ :: _) |- _ => apply Forall_cons in H as [?%dot_or_num_digit H]
  end.
  repeat match goal with
  | H : ∃ c, _ |- _ => destruct H as (? & ? & ? & ? & ? & ?)
  end.
  unfold row_text. cbn [fmap list_fmap take drop join].
  repeat match goal with H : _dot_or_num _ = _ |- _ => rewrite H; clear H end.
  cbn [app]. rewrite normalize_alt.
  match goal with |- context [strip ?l] => replace (strip l) with l end.
  2:{ unfold strip, rstrip. cbn [lstrip].
      match goal with H : isspace ?c = false |- context [isspace ?c] => rewrite H end.
      cbn [reverse rev_append lstrip].
      match goal with H : isspace ?c = false |- context [isspace ?c] => rewrite H end.
      done. }
  assert (∀ l : str, filter (λ c, c ≠ " "%char) (" "%char :: l)
                     = filter (λ c, c ≠ " "%char) l) as Hspace
    by (intros l; apply filter_cons_False; by intros Hc).
  repeat first [rewrite filter_cons_True by done | rewrite Hspace].
  rewrite filter_nil. cbn [fmap list_fmap].
  split_and!; [| done | done |].
  - rewrite !not_elem_of_cons.
    split_and!; try done; try (by apply not_eq_sym); apply not_elem_of_nil.
  - apply mapM_Some. by repeat constructor.
Qed.

(** ** Printing and reading back *)

Lemma board_from_lines_from_row i (r : list Z) (t : str) (items : Board) :
  digit_row r →
  board_from_lines_from i (split_lines (row_text r ++ "010"%char :: t)) items
  = board_from_lines_from (S i) (split_lines t) (items ++ [r]).
Proof.
  intros (Hnl & Hne & Hlen & Hrow)%row_text_normal.
  rewrite split_lines_cons by done. cbn [board_from_lines_from].
  rewrite decide_False by done. rewrite decide_False by (by rewrite Hlen; intros ?).
  by rewrite Hrow.
Qed.

Lemma board_from_lines_from_blank i (t : str) (items : Board) :
  board_from_lines_from i (split_lines ("010"%char :: t)) items
  = board_from_lines_from (S i) (split_lines t) items.
Proof. done. Qed.

Lemma board_from_lines_from_print (b : Board) k i (items : Board) :
  Forall digit_row b →
  board_from_lines_from i
    (split_lines (mjoin (imap (λ j r,
       (if decide (k + j ∈ [3; 6]) then ["010"%char] else [])
       ++ row_text r ++ ["010"%char]) b))) items
  = inr (items ++ b).
Proof.
  intros Hrows. revert k i items.
  induction Hrows as [|r b Hr _ IH]; intros k i items.
  { simpl. by rewrite app_nil_r. }
  rewrite imap_cons. cbn [mjoin list_join]. rewrite <- !app_assoc.
  rewrite (imap_ext _ (λ j r, (if decide (S k + j ∈ [3; 6]) then ["010"%char] else [])
                              ++ row_text r ++ ["010"%char]))
    by (intros j r' _; simpl; by rewrite Nat.add_succ_r).
  destruct (decide (k + 0 ∈ [3; 6])); cbn [app];
    rewrite ?board_from_lines_from_blank, board_from_lines_from_row by done;
    rewrite IH; by rewrite <- app_assoc.
Qed.

(** X1: what [Board.print] writes for a board whose rows hold nine values
    from 0 to 9 each is read back by [board_from_str] as that board. *)
Theorem print_then_parse (b : Board) :
  Forall digit_row b → board_from_str (print b) = inr b.
Proof.
  intros Hrows. exact (board_from_lines_from_print b 0 0 [] Hrows).
Qed.

Lemma test_parse_board_digit_rows : Forall digit_row test_parse_board.
Proof. repeat constructor; lia. Qed.

Lemma print_then_parse_witness :
  board_from_str (print test_parse_board) = inr test_parse_board.
Proof. apply (print_then_parse test_parse_board). exact test_parse_board_digit_rows. Defined.

(** ** What [board_from_lines] accepts *)

Lemma int_of_char_range (c : ascii) (v : Z) :
  int_of_char c = Some v → (0 ≤ v ≤ 9)%Z.
Proof. unfold int_of_char. case_decide; intros [= <-]. lia. Qed.

Lemma mapM_int_of_char_row (line : str) (r : list Z) :
  length line = 9 → mapM int_of_char line = Some r → digit_row r.
Proof.
  intros Hlen Hrow%mapM_Some. split.
  - by rewrite <- (Forall2_length _ _ _ Hrow).
  - clear Hlen. induction Hrow as [|c v line r Hc _ IH]; constructor; [|done].
    by eapply int_of_char_range.
Qed.

Lemma board_from_lines_from_rows i (lines : list str) (items b : Board) :
  board_from_lines_from i lines items = inr b →
  ∃ new, b = items ++ new ∧ Forall digit_row new ∧
         length new = length (filter (λ l, normalize l ≠ []) lines).
Proof.
  revert i items. induction lines as [|line lines IH]; intros i items; cbn [board_from_lines_from].
  { intros [= <-]. exists []. by rewrite app_nil_r. }
  destruct (decide (normalize line = [])) as [Hblank|Hblank].
  - rewrite filter_cons_False by auto. apply IH.
  - rewrite filter_cons_True by done. case_decide as Hlen; [done|].
    destruct (mapM int_of_char (normalize line)) as [r|] eqn:Hrow; [|done].
    intros (new & -> & Hnew & Hcount)%IH. exists (r :: new).
    split_and!; [by rewrite <- app_assoc | | simpl; by rewrite Hcount].
    constructor; [|done]. eapply mapM_int_of_char_row; [|done].
    by destruct (decide (length (normalize line) = 9)).
Qed.

(** X2: a board that [board_from_lines] returns has one row per line that
    is not blank, whatever their number, and each row holds nine values
    from 0 to 9. *)
Theorem board_from_lines_rows (lines : list str) (b : Board) :
  board_from_lines lines = inr b →
  Forall digit_row b ∧
  length b = length (filter (λ l, normalize l ≠ []) lines).
Proof.
  intros (new & -> & Hnew & Hcount)%board_from_lines_from_rows. by split.
Qed.

Lemma board_from_lines_rows_witness :
  Forall digit_row test_parse_board ∧
  length test_parse_board
  = length (filter (λ l, normalize l ≠ []) (split_lines (print test_parse_board))).
Proof.
  apply (board_from_lines_rows (split_lines (print test_parse_board)) test_parse_board).
  by vm_compute.
Defined.

(** ** What [board_from_lines] rejects *)

Lemma board_from_lines_from_good i (pre rest : list str) (items : Board) :
  Forall good_line pre →
  ∃ items', board_from_lines_from i (pre ++ rest) items
            = board_from_lines_from (i + length pre) rest items'.
Proof.
  intros Hpre. revert i items.
  induction Hpre as [|line pre Hline _ IH]; intros i items.
  { exists items. by rewrite Nat.add_0_r. }
  assert (i + length (line :: pre) = S i + length pre) as -> by (simpl; lia).
  cbn [app board_from_lines_from].
  destruct Hline as [Hblank|[Hlen [r Hr]]].
  - rewrite decide_True by done. apply (IH (S i)).
  - rewrite decide_False by (intros Hnil; by rewrite Hnil in Hlen).
    rewrite decide_False by auto. rewrite Hr. apply (IH (S i)).
Qed.

(** X3: the first line that is neither blank nor nine characters long once
    normalised makes [board_from_lines] raise its [Exception].  The message
    names the line by its position among all lines, blank ones included,
    counted from 1; it never shows the line. *)
Theorem board_from_lines_bad_length (pre post : list str) (bad : str) :
  Forall good_line pre →
  normalize bad ≠ [] → length (normalize bad) ≠ 9 →
  board_from_lines (pre ++ bad :: post)
  = inl (Exception (length_message (length pre + 1))).
Proof.
  intros Hpre Hblank Hlen. unfold board_from_lines.
  destruct (board_from_lines_from_good 0 pre (bad :: post) [] Hpre) as [items ->].
  cbn [board_from_lines_from]. by rewrite decide_False, decide_True.
Qed.

Lemma board_from_lines_bad_length_witness :
  board_from_lines ([[]; String.list_ascii_of_string "123456789"%string]
                    ++ String.list_ascii_of_string "1234"%string :: [])
  = inl (Exception (length_message (2 + 1))).
Proof.
  apply (board_from_lines_bad_length
           [[]; String.list_ascii_of_string "123456789"%string] []
           (String.list_ascii_of_string "1234"%string)).
  - apply Forall_cons. split; [by left|].
    apply Forall_cons. split; [|constructor].
    right. split; [by vm_compute | vm_compute; by eexists].
  - by vm_compute.
  - by vm_compute.
Defined.

(** X4: a line of nine characters, once normalised, with a character that
    is not a decimal digit makes [board_from_lines] fail with the
    [ValueError] of [int], not with its own [Exception]. *)
Theorem board_from_lines_bad_char (pre post : list str) (bad : str) (c : ascii) :
  Forall good_line pre →
  length (normalize bad) = 9 → c ∈ normalize bad →
  ¬ (48 ≤ nat_of_ascii c ≤ 57) →
  board_from_lines (pre ++ bad :: post) = inl ValueError.
Proof.
  intros Hpre Hlen Hc Hnodigit. unfold board_from_lines.
  destruct (board_from_lines_from_good 0 pre (bad :: post) [] Hpre) as [items ->].
  cbn [board_from_lines_from].
  rewrite decide_False by (intros Hnil; by rewrite Hnil in Hlen).
  rewrite decide_False by auto.
  assert (mapM int_of_char (normalize bad) = None) as ->; [|done].
  apply mapM_None, Exists_exists. exists c. split; [done|].
  unfold int_of_char. by rewrite decide_False.
Qed.

Lemma board_from_lines_bad_char_witness :
  board_from_lines ([] ++ String.list_ascii_of_string "12345678x"%string :: [])
  = inl ValueError.
Proof.
  apply (board_from_lines_bad_char [] []
           (String.list_ascii_of_string "12345678x"%string) "x"%char).
  - constructor.
  - by vm_compute.
  - vm_compute. do 8 right. by left.
  - vm_compute. lia.
Defined.

(** ** Characters that make no difference *)

Lemma lstrip_fmap (f : ascii → ascii) (s : str) :
  (∀ c, isspace (f c) = isspace c) → lstrip (f <$> s) = f <$> lstrip s.
Proof.
  intros Hf. induction s as [|c s IH]; [done|].
  cbn [fmap list_fmap lstrip]. rewrite Hf. by destruct (isspace c).
Qed.

Lemma strip_fmap (f : ascii → ascii) (s : str) :
  (∀ c, isspace (f c) = isspace c) → strip (f <$> s) = f <$> strip s.
Proof.
  intros Hf. unfold strip, rstrip.
  by rewrite lstrip_fmap, <- fmap_reverse, lstrip_fmap, fmap_reverse.
Qed.

Lemma filter_fmap_same (f : ascii → ascii) (P : ascii → Prop)
    `{∀ c, Decision (P c)} (s : str) :
  (∀ c, P (f c) ↔ P c) → filter P (f <$> s) = f <$> filter P s.
Proof.
  intros Hf. induction s as [|c s IH]; [done|].
  rewrite fmap_cons, !filter_cons, IH.
  destruct (decide (P c)) as [Hc|Hc].
  - by rewrite decide_True by by apply Hf.
  - by rewrite decide_False by by rewrite Hf.
Qed.

Lemma normalize_dots (line : str) :
  normalize (replace "."%char ["0"%char] line) = normalize line.
Proof.
  rewrite !normalize_alt, replace_single.
  set (f := λ c : ascii, if decide (c = "."%char) then "0"%char else c).
  assert (∀ c, isspace (f c) = isspace c) as Hspace.
  { intros c. unfold f. case_decide as Hc; [by subst|done]. }
  assert (∀ c, f c ≠ " "%char ↔ c ≠ " "%char) as Hblank.
  { intros c. unfold f. case_decide as Hc; [by subst|done]. }
  rewrite strip_fmap, filter_fmap_same, <- list_fmap_compose by done.
  apply list_fmap_ext. intros _ c _. simpl. unfold f.
  destruct (decide (c = "."%char)) as [->|Hc]; [done|]. by rewrite decide_False.
Qed.

Lemma lstrip_filter_space (s : str) :
  lstrip (filter (λ c, c ≠ " "%char) s) = filter (λ c, c ≠ " "%char) (lstrip s).
Proof.
  induction s as [|c s IH]; [done|].
  cbn [lstrip]. destruct (isspace c) eqn:Hc.
  - rewrite filter_cons. case_decide; [|done]. cbn [lstrip]. by rewrite Hc.
  - rewrite filter_cons_True by (intros ->; done). cbn [lstrip]. by rewrite Hc.
Qed.

Lemma normalize_spaces (line : str) :
  normalize (replace " "%char [] line) = normalize line.
Proof.
  rewrite !normalize_alt, replace_empty. f_equal.
  unfold strip, rstrip.
  rewrite lstrip_filter_space, <- filter_reverse, lstrip_filter_space.
  rewrite !filter_reverse. f_equal. by apply list_filter_filter_l.
Qed.

Lemma board_from_lines_from_ext (g : str → str) i (lines : list str) (items : Board) :
  (∀ line, normalize (g line) = normalize line) →
  board_from_lines_from i (g <$> lines) items = board_from_lines_from i lines items.
Proof.
  intros Hg. revert i items. induction lines as [|line lines IH]; intros i items; [done|].
  cbn [fmap list_fmap board_from_lines_from]. rewrite Hg.
  repeat case_decide; try done. destruct (mapM int_of_char (normalize line)); [apply IH|done].
Qed.

(** X5: [board_from_lines] does not tell a dot from a zero: turning the
    dots of every line into zeros changes neither the board nor the
    exception. *)
Theorem board_from_lines_dots (lines : list str) :
  board_from_lines (replace "."%char ["0"%char] <$> lines) = board_from_lines lines.
Proof. apply board_from_lines_from_ext. intros line. apply normalize_dots. Qed.

(** X6: [board_from_lines] ignores spaces wherever they stand in a line:
    removing them all changes neither the board nor the exception. *)
Theorem board_from_lines_spaces (lines : list str) :
  board_from_lines (replace " "%char [] <$> lines) = board_from_lines lines.
Proof. apply board_from_lines_from_ext. intros line. apply normalize_spaces. Qed.

(** ** Blank lines *)

(** The index of [enumerate] only shows in the exception. *)
Lemma board_from_lines_from_index i j (lines : list str) (items b : Board) :
  board_from_lines_from i lines items = inr b →
  board_from_lines_from j lines items = inr b.
Proof.
  revert i j items. induction lines as [|line lines IH]; intros i j items; [done|].
  cbn [board_from_lines_from]. destruct (decide (normalize line = [])); [apply IH|].
  destruct (decide (length (normalize line) ≠ 9)); [done|].
  destruct (mapM int_of_char (normalize line)); [apply IH | done].
Qed.

Lemma board_from_lines_from_app i (pre rest : list str) (items : Board) :
  board_from_lines_from i (pre ++ rest) items
  = match board_from_lines_from i pre items with
    | inr items' => board_from_lines_from (i + length pre) rest items'
    | inl e => inl e
    end.
Proof.
  revert i items. induction pre as [|line pre IH]; intros i items.
  { simpl. by rewrite Nat.add_0_r. }
  assert (i + length (line :: pre) = S i + length pre) as -> by (simpl; lia).
  cbn [app board_from_lines_from]. destruct (decide (normalize line = [])); [apply IH|].
  destruct (decide (length (normalize line) ≠ 9)); [done|].
  destruct (mapM int_of_char (normalize line)); [apply IH | done].
Qed.

(** X7: a line that is blank once normalised (empty, or white space only)
    does not change the board that [board_from_lines] returns, wherever it
    stands. *)
Theorem board_from_lines_blank (pre post : list str) (blank : str) (b : Board) :
  normalize blank = [] →
  board_from_lines (pre ++ blank :: post) = inr b ↔
  board_from_lines (pre ++ post) = inr b.
Proof.
  intros Hblank. unfold board_from_lines. rewrite !board_from_lines_from_app.
  destruct (board_from_lines_from 0 pre []) as [e|items]; [done|].
  cbn [board_from_lines_from]. rewrite decide_True by done.
  split; apply board_from_lines_from_index.
Qed.

Lemma board_from_lines_blank_witness :
  board_from_lines ([[]] ++ [" "%char; "009"%char] :: split_lines (print test_parse_board))
    = inr test_parse_board ↔
  board_from_lines ([[]] ++ split_lines (print test_parse_board)) = inr test_parse_board.
Proof.
  apply (board_from_lines_blank [[]] (split_lines (print test_parse_board))
           [" "%char; "009"%char] test_parse_board).
  by vm_compute.
Defined.

(** ** More on [is_valid] and [find_all_possible] *)

(** X8: on a well-formed board [is_valid] returns [False] exactly when
    some row or some 3x3 box holds a non-zero value twice; columns play no
    part in its answer. *)
Theorem is_valid_detects_rows_and_boxes (b : Board) :
  wf b →
  is_valid b = false ↔ repeated_in same_row b ∨ repeated_in same_box b.
Proof.
  intros Hwf. split.
  - intros Hinvalid. by apply is_valid_false_iff.
  - intros Hrepeat. by apply is_valid_false_iff.
Qed.

Lemma is_valid_detects_rows_and_boxes_witness :
  is_valid column_clash = false ↔
  repeated_in same_row column_clash ∨ repeated_in same_box column_clash.
Proof. apply (is_valid_detects_rows_and_boxes column_clash). exact column_clash_wf. Defined.

Lemma StronglySorted_filter_lt (P : Z → Prop) `{∀ v, Decision (P v)} (l : list Z) :
  StronglySorted Z.lt l → StronglySorted Z.lt (filter P l).
Proof.
  induction 1 as [|v l Hl IH Hv]; [constructor|].
  rewrite filter_cons. case_decide; [|done].
  constructor; [done|]. apply Forall_forall. intros w [_ Hw]%list_elem_of_filter.
  eapply Forall_forall in Hv; eauto.
Qed.

Lemma find_all_possible_sorted (b : Board) x y :
  StronglySorted Z.lt (find_all_possible b x y).
Proof.
  unfold find_all_possible. apply StronglySorted_filter_lt.
  change (seqZ 1 9) with [1; 2; 3; 4; 5; 6; 7; 8; 9]%Z.
  repeat (constructor; [repeat constructor; lia|]). constructor.
Qed.

(** X9: [find_all_possible] yields digits from 1 to 9 in increasing order,
    each at most once, for any board and any cell; so the candidates of a
    branch are tried from the smallest up. *)
Theorem find_all_possible_ascending (b : Board) x y :
  StronglySorted Z.lt (find_all_possible b x y) ∧
  Forall (λ v, (1 ≤ v ≤ 9)%Z) (find_all_possible b x y).
Proof.
  split; [apply find_all_possible_sorted|].
  apply Forall_forall. intros v Hv. by eapply find_all_possible_range.
Qed.

Lemma all_others_set_item (b : Board) x y v :
  _all_others (set_item b x y v) x y = _all_others b x y.
Proof.
  unfold _all_others. f_equal; [|f_equal].
  - unfold yield_box. apply list_bind_ext; [|done]. intros i.
    apply list_bind_ext; [|done]. intros j.
    case_decide as Hij; [done|]. rewrite item_set_item_ne; [done|].
    intros [= -> ->]. by apply Hij.
  - unfold yield_row. f_equal. rewrite row_set_item, decide_True by done.
    apply list_eq. intros i. rewrite !list_lookup_imap.
    destruct (decide (i = y)) as [->|Hi].
    + destruct (decide (y < length (row b x))) as [Hy|Hy].
      * rewrite list_lookup_insert_eq by done.
        destruct (lookup_lt_is_Some_2 (row b x) y Hy) as [w ->]. simpl.
        done.
      * by rewrite list_insert_ge by lia.
    + by rewrite list_lookup_insert_ne.
  - unfold yield_column. apply list_bind_ext; [|done]. intros a.
    case_decide as Ha; [done|]. rewrite item_set_item_ne; [done|]. congruence.
Qed.

(** X10: the values [find_all_possible] yields for a cell do not depend on
    what the cell itself holds: the three generators skip it. *)
Theorem find_all_possible_own_cell (b : Board) x y v :
  find_all_possible (set_item b x y v) x y = find_all_possible b x y.
Proof. unfold find_all_possible. by rewrite all_others_set_item. Qed.

(** ** More on the scan *)

Lemma cells_row_major : StronglySorted row_major cells.
Proof. compute_done. Qed.

Lemma filter_head_sorted {A} (R : A → A → Prop) (P : A → Prop)
    `{∀ x, Decision (P x)} (l : list A) c rest q :
  StronglySorted R l → filter P l = c :: rest → q ∈ l → P q → c = q ∨ R c q.
Proof.
  induction 1 as [|a l Hl IH Ha]; [by intros _ ?%elem_of_nil|].
  rewrite filter_cons. intros Hfilter [->|Hq]%elem_of_cons HP.
  - rewrite decide_True in Hfilter by done. injection Hfilter as -> _. by left.
  - case_decide; [|by apply IH].
    injection Hfilter as -> _. right. eapply Forall_forall in Ha; eauto.
Qed.

(** X11: the cell [solve] branches on, the first entry of the scan, is the
    first empty cell of the grid in row-major order. *)
Theorem scan_first_empty_cell (b : Board) c ps l q :
  scan b = Some ((c, ps) :: l) →
  in_grid q → cell b q = 0%Z →
  cell b c = 0%Z ∧ (c = q ∨ row_major c q).
Proof.
  intros Hscan Hq Hz. split; [by destruct (scan_first _ _ _ _ Hscan) as (_ & ? & _)|].
  apply scan_Some in Hscan as [Hl _].
  destruct (filter (λ p, cell b p = 0%Z) cells) as [|c' rest] eqn:Hfilter; [done|].
  injection Hl as -> _ _.
  eapply (filter_head_sorted row_major); [apply cells_row_major | done | | done].
  by apply elem_of_cells.
Qed.

Lemma scan_first_empty_cell_witness :
  cell test_parse_board (0, 2) = 0%Z ∧ ((0, 2) = (4, 4) ∨ row_major (0, 2) (4, 4)).
Proof.
  apply (scan_first_empty_cell test_parse_board (0, 2) [2; 4; 6; 7]%Z
           (tail (default [] (scan test_parse_board))) (4, 4)).
  - by vm_compute.
  - unfold in_grid. simpl. lia.
  - reflexivity.
Defined.

(** ** More on [solve] *)

(** X12: a board without an empty cell is returned as it is by the first
    scan, whatever it holds: nothing is checked and nothing is written. *)
Theorem solve_returns_full_board depth fuel (b : Board) :
  full b → solve depth (S fuel) b = Returned (Some b).
Proof.
  intros Hfull. rewrite solve_unfold, solve_loop_unfold.
  assert (scan b = Some []) as ->; [|done].
  apply scan_Some. split.
  - apply empties_zero_full in Hfull. unfold empties in Hfull.
    apply length_zero_iff_nil in Hfull. by rewrite Hfull.
  - intros p Hp Hz. by destruct (Hfull p Hp).
Qed.

Lemma solve_returns_full_board_witness :
  solve 0 1 all_ones = Returned (Some all_ones).
Proof.
  apply (solve_returns_full_board 0 0 all_ones).
  apply empties_zero_full. by vm_compute.
Defined.

(** X13: every cell that [solve] fills holds a digit from 1 to 9 in the
    returned grid, whatever integers the given cells hold. *)
Theorem solve_fills_digits depth fuel (b g : Board) :
  wf b → solve depth fuel b = Returned (Some g) →
  ∀ p, in_grid p → cell b p = 0%Z → (1 ≤ cell g p ≤ 9)%Z.
Proof.
  intros Hwf Hrun.
  by destruct (solve_result depth fuel b g Hwf Hrun) as (_ & _ & _ & _ & Hdigits).
Qed.

Lemma solve_fills_digits_witness :
  (1 ≤ cell test_parse_solution (0%nat, 2%nat) ≤ 9)%Z.
Proof.
  apply (solve_fills_digits 81 82 test_parse_board test_parse_solution);
    [exact test_parse_board_wf | by vm_compute
    | unfold in_grid; simpl; lia | by vm_compute].
Defined.

(** X14: on a board with a valid completion a propagation pass never
    fails, and the board it leaves still has that completion: a single is
    forced to the value the completion gives its cell. *)
Theorem propagation_keeps_completions (b c : Board) l :
  wf b → completion b c → scan b = Some l →
  ∃ b', assign_singles b (singles_of l) = (b', true) ∧
        completion b' c ∧
        ∀ e, e ∈ singles_of l → e.2 = [cell c e.1].
Proof.
  intros Hwf Hc Hscan.
  destruct (assign_singles_completion b c (singles_of l)) as (b' & Hrun & _ & Hc'); [done..| |].
  { apply Forall_forall. intros e He. by eapply completion_single. }
  exists b'. split_and!; [done | done |].
  intros e He. destruct (completion_single b c l e Hwf Hc Hscan He) as [_ Hhd].
  apply singles_of_entry in He as [Hlen _].
  destruct e.2 as [|v [|]]; [done| |done]. simpl in Hhd. by subst.
Qed.

Lemma propagation_keeps_completions_witness :
  ∃ b', assign_singles test_parse_board
          (singles_of (default [] (scan test_parse_board))) = (b', true) ∧
        completion b' test_parse_solution ∧
        ∀ e, e ∈ singles_of (default [] (scan test_parse_board)) →
             e.2 = [cell test_parse_solution e.1].
Proof.
  apply (propagation_keeps_completions test_parse_board test_parse_solution
           (default [] (scan test_parse_board))
           test_parse_board_wf test_parse_completion).
  by vm_compute.
Defined.

Lemma try_candidates_first (rec : Board → outcome Board) (b : Board) c ps g :
  try_candidates rec b c ps = Returned (Some g) →
  ∃ pre i post, ps = pre ++ i :: post ∧
    rec (set_item b c.1 c.2 i) = Returned (Some g) ∧
    ∀ j, j ∈ pre → rec (set_item b c.1 c.2 j) = Returned None.
Proof.
  induction ps as [|i ps IH]; simpl; [done|].
  destruct (rec (set_item b c.1 c.2 i)) as [|[g'|]] eqn:Hi; [done| |].
  - intros [= ->]. exists [], i, ps. split_and!; [done | done |].
    intros j Hj. by apply elem_of_nil in Hj.
  - intros (pre & k & post & -> & Hk & Hpre)%IH.
    exists (i :: pre), k, post. split_and!; [done | done |].
    intros j [->|Hj]%elem_of_cons; [done | by apply Hpre].
Qed.

(** X15: when [solve] has to branch, the grid it returns is the one found
    in the branch of the smallest candidate whose branch finds any; the
    branches of all smaller candidates returned [None]. *)
Theorem solve_first_successful_candidate depth fuel (b g : Board) c ps l :
  scan b = Some ((c, ps) :: l) → singles_of ((c, ps) :: l) = [] →
  solve (S depth) (S fuel) b = Returned (Some g) →
  ∃ pre i post, ps = pre ++ i :: post ∧
    Forall (λ j, (j < i)%Z) pre ∧
    solve depth (S fuel) (set_item b c.1 c.2 i) = Returned (Some g) ∧
    ∀ j, j ∈ pre → solve depth (S fuel) (set_item b c.1 c.2 j) = Returned None.
Proof.
  intros Hscan Hsingles. rewrite solve_unfold, solve_loop_unfold, Hscan, Hsingles.
  intros (pre & i & post & -> & Hi & Hpre)%try_candidates_first.
  exists pre, i, post. split_and!; [done | | done | done].
  destruct (scan_first _ _ _ _ Hscan) as (_ & _ & Hps).
  assert (StronglySorted Z.lt (pre ++ i :: post)) as Hsorted
    by (rewrite Hps; apply find_all_possible_sorted).
  apply Forall_forall. intros j Hj.
  eapply StronglySorted_app_1_elem_of; [done | done | by left].
Qed.

Lemma solve_first_successful_candidate_witness :
  ∃ pre i post, [1; 2; 3; 4; 5; 6; 7; 8; 9]%Z = pre ++ i :: post ∧
    Forall (λ j, (j < i)%Z) pre ∧
    solve 80 (S 81) (set_item empty_board (0, 0).1 (0, 0).2 i)
      = Returned (Some empty_board_solution) ∧
    ∀ j, j ∈ pre →
      solve 80 (S 81) (set_item empty_board (0, 0).1 (0, 0).2 j) = Returned None.
Proof.
  apply (solve_first_successful_candidate 80 81 empty_board empty_board_solution
           (0, 0) [1; 2; 3; 4; 5; 6; 7; 8; 9]%Z
           (tail (default [] (scan empty_board)))); by vm_compute.
Defined.

(** ** More on the solver in place *)

Lemma store_solve_loop_unfold rec fuel h (board : list nat) :
  Store.solve_loop rec (S fuel) h board =
  match scan (Store.read h board) with
  | None => (h, Returned None)
  | Some [] => (h, Returned (Some board))
  | Some (((coordinates, possibles) :: _) as list_of_possibles) =>
      match singles_of list_of_possibles with
      | [] => Store.try_candidates rec h board coordinates possibles
      | singles =>
          match Store.assign_singles h board singles with
          | (h', true) => Store.solve_loop rec fuel h' board
          | (h', false) => (h', Returned None)
          end
      end
  end.
Proof. reflexivity. Qed.

Lemma store_solve_unfold depth fuel h (board : list nat) :
  Store.solve depth fuel h board
  = Store.solve_loop (Store.callee depth fuel) fuel h board.
Proof. by destruct depth. Qed.

(** X16: when some empty cell of a well-formed board (nine rows of nine
    cells, so that no lookup of the scan is out of range) has no legal
    value, [solve] returns [None] from its first scan and leaves every
    object of the store, the rows of the caller's board among them, as it
    found it. *)
Theorem solve_dead_end_untouched depth fuel h (board : list nat) p :
  wf (Store.read h board) →
  in_grid p → cell (Store.read h board) p = 0%Z →
  find_all_possible (Store.read h board) p.1 p.2 = [] →
  Store.solve depth (S fuel) h board = (h, Returned None).
Proof.
  intros _ Hp Hz Hnone. rewrite store_solve_unfold, store_solve_loop_unfold.
  destruct (scan (Store.read h board)) as [l|] eqn:Hscan; [|done].
  apply scan_Some in Hscan as [_ Hall]. by destruct (Hall p Hp Hz).
Qed.

Lemma solve_dead_end_untouched_witness :
  Store.solve 81 (S 81) dead_corner (seq 0 9) = (dead_corner, Returned None).
Proof.
  apply (solve_dead_end_untouched 81 81 dead_corner (seq 0 9) (0, 0));
    [exact dead_corner_wf | unfold in_grid; simpl; lia | by vm_compute | by vm_compute].
Defined.

(** X17: run on a board object whose rows are distinct objects of the
    store, [solve] returns a board whose contents are what the solver
    computes from the contents of its argument alone; the store only grows,
    and no object that existed before the call changes, other than the
    rows of the argument. *)
Theorem solve_in_place_agrees depth fuel h (b : list nat) :
  Store.valid h b → NoDup b →
  Store.contents (Store.solve depth fuel h b).1 (Store.solve depth fuel h b).2
  = solve depth fuel (Store.read h b) ∧
  length h ≤ length (Store.solve depth fuel h b).1 ∧
  ∀ a, a < length h → a ∉ b → (Store.solve depth fuel h b).1 !! a = h !! a.
Proof.
  intros Hvalid Hnd.
  destruct (store_solve_refines depth fuel h b Hvalid Hnd) as (Heq & Hgrow & Hframe).
  by split_and!.
Qed.

Lemma seq_valid (b : Board) : Store.valid b (seq 0 (length b)).
Proof. intros a Ha%elem_of_seq. lia. Qed.

Lemma solve_in_place_agrees_witness :
  Store.contents (Store.solve 81 82 test_parse_board (seq 0 9)).1
                 (Store.solve 81 82 test_parse_board (seq 0 9)).2
  = solve 81 82 (Store.read test_parse_board (seq 0 9)) ∧
  length test_parse_board ≤ length (Store.solve 81 82 test_parse_board (seq 0 9)).1 ∧
  ∀ a, a < length test_parse_board → a ∉ seq 0 9 →
       (Store.solve 81 82 test_parse_board (seq 0 9)).1 !! a = test_parse_board !! a.
Proof.
  apply (solve_in_place_agrees 81 82 test_parse_board (seq 0 9));
    [apply (seq_valid test_parse_board) | apply NoDup_seq].
Defined.

Section store_result.
Context (rec : list (list Z) → list nat → list (list Z) * outcome (list nat)).
Hypothesis rec_grows : ∀ h b,
  Store.valid h b → NoDup b → length h ≤ length (rec h b).1.
Hypothesis rec_result : ∀ h b h' r,
  Store.valid h b → NoDup b → rec h b = (h', Returned (Some r)) →
  r = b ∨ ∀ a, a ∈ r → length h ≤ a.

Lemma store_try_candidates_result h (b : list nat) c ps h' r :
  Store.valid h b → NoDup b →
  Store.try_candidates rec h b c ps = (h', Returned (Some r)) →
  ∀ a, a ∈ r → length h ≤ a.
Proof.
  intros Hvalid Hnd. revert h Hvalid.
  induction ps as [|i ps IH]; intros h Hvalid; [done|].
  simpl. rewrite deepcopy_fresh by done.
  set (h1 := h ++ Store.read h b).
  set (cl := seq (length h) (length b)).
  set (h2 := Store.write h1 cl c.1 c.2 i).
  assert (length h2 = length h + length b) as Hlen2.
  { unfold h2, h1. by rewrite store_write_length, length_app, store_read_length. }
  assert (Store.valid h2 cl) as Hvalid2 by (intros a Ha%elem_of_seq; lia).
  assert (NoDup cl) as Hndcl by apply NoDup_seq.
  pose proof (rec_grows h2 cl Hvalid2 Hndcl) as Hgrow.
  pose proof (rec_result h2 cl) as Hres.
  destruct (rec h2 cl) as [h3 [|[ret|]]]; [done| |].
  - intros [= <- <-]. destruct (Hres h3 ret Hvalid2 Hndcl eq_refl) as [->|Hfresh].
    + intros a Ha%elem_of_seq. lia.
    + intros a Ha. specialize (Hfresh a Ha). lia.
  - intros Hrun a Ha. simpl in Hgrow.
    assert (length h3 ≤ a); [|lia].
    eapply (IH h3); [|done..]. eapply store_valid_mono; [|done]. lia.
Qed.

Lemma store_solve_loop_result fuel h (b : list nat) h' r :
  Store.valid h b → NoDup b →
  Store.solve_loop rec fuel h b = (h', Returned (Some r)) →
  r = b ∨ ∀ a, a ∈ r → length h ≤ a.
Proof.
  intros Hvalid Hnd. revert h Hvalid.
  induction fuel as [|fuel IH]; intros h Hvalid; [done|].
  rewrite store_solve_loop_unfold.
  destruct (scan (Store.read h b)) as [[|[c ps] l]|]; [by intros [= <- <-]; left| |done].
  destruct (singles_of ((c, ps) :: l)) as [|e ss].
  - intros Hrun. right. by eapply store_try_candidates_result.
  - destruct (store_assign_singles_refines h b (e :: ss) Hnd) as (_ & Hlen & _).
    destruct (Store.assign_singles h b (e :: ss)) as [h1 [|]]; [|done].
    simpl in Hlen. intros Hrun. rewrite <- Hlen. eapply IH; [|done].
    eapply store_valid_mono; [|done]. lia.
Qed.
End store_result.

(** X18: the board [solve] returns is either the very object it was given,
    filled in place, or a copy made while branching, none of whose rows
    existed before the call. *)
Theorem solve_result_object depth fuel h (b : list nat) h' r :
  Store.valid h b → NoDup b →
  Store.solve depth fuel h b = (h', Returned (Some r)) →
  r = b ∨ ∀ a, a ∈ r → length h ≤ a.
Proof.
  revert h b h' r. induction depth as [|depth IH]; intros h b h' r Hvalid Hnd;
    rewrite store_solve_unfold; (apply store_solve_loop_result; [| |done..]).
  - done.
  - done.
  - intros h0 b0 Hvalid0 Hnd0.
    by destruct (store_solve_refines depth fuel h0 b0 Hvalid0 Hnd0) as (_ & ? & _).
  - intros h0 b0 h0' r0. apply IH.
Qed.

Lemma solve_result_object_witness :
  seq 0 9 = seq 0 9 ∨ ∀ a, a ∈ seq 0 9 → length test_parse_board ≤ a.
Proof.
  apply (solve_result_object 81 82 test_parse_board (seq 0 9)
           (Store.solve 81 82 test_parse_board (seq 0 9)).1 (seq 0 9));
    [apply (seq_valid test_parse_board) | apply NoDup_seq | by vm_compute].
Defined.

(** ** Forced moves alone *)

(** Two well-formed boards with the same cells are the same board. *)
Lemma board_ext (b c : Board) :
  wf b → wf c → (∀ p, in_grid p → cell b p = cell c p) → b = c.
Proof.
  intros Hb Hc Hcells. apply list_eq. intros x.
  destruct (decide (x < 9)) as [Hx|Hx].
  2:{ destruct Hb as [Hb _], Hc as [Hc _].
      rewrite !(proj2 (lookup_ge_None _ _)) by lia. done. }
  assert (row b x = row c x) as Hrow.
  { rewrite !row_as_items by done. apply list_fmap_ext. intros i y [-> Hi]%lookup_seq.
    apply (Hcells (x, 0 + i)). split; simpl; lia. }
  unfold row in Hrow.
  destruct (lookup_lt_is_Some_2 b x) as [rb Hrb]; [destruct Hb; lia|].
  destruct (lookup_lt_is_Some_2 c x) as [rc Hrc]; [destruct Hc; lia|].
  rewrite Hrb, Hrc in Hrow |- *. simpl in Hrow. by subst.
Qed.

Lemma solve_loop_forced (b c g : Board) fuel :
  wf b → completion b c →
  solve_loop (λ _, OutOfFuel) fuel b = Returned (Some g) → g = c.
Proof.
  revert b. induction fuel as [|fuel IH]; intros b Hwf Hc; [done|].
  rewrite solve_loop_unfold.
  destruct (scan b) as [[|[p ps] l]|] eqn:Hscan; [| |done].
  - intros [= <-]. destruct Hc as (Hwfc & _ & Hext & _).
    apply board_ext; [done..|]. intros q Hq. symmetry. apply Hext; [done|].
    by apply (scan_nil_full b Hscan).
  - destruct (singles_of ((p, ps) :: l)) as [|e ss] eqn:Hsingles.
    + destruct (scan_entry b _ (p, ps) Hscan) as (_ & _ & _ & Hne); [by left|].
      simpl in Hne. by destruct ps.
    + rewrite <- Hsingles.
      destruct (assign_singles_completion b c (singles_of ((p, ps) :: l)))
        as (b' & -> & Hwf' & Hc'); [done..| |].
      { apply Forall_forall. intros e' He'. by eapply completion_single. }
      by apply IH.
Qed.

(** X19: if [solve] returns a grid without ever branching, for a board
    that has a valid completion, the grid is that completion; such a board
    has no other. *)
Theorem solve_forced_is_completion fuel (b c g : Board) :
  wf b → completion b c → solve 0 fuel b = Returned (Some g) → g = c.
Proof.
  intros Hwf Hc. rewrite solve_unfold. by apply solve_loop_forced.
Qed.

Lemma solve_forced_is_completion_witness :
  solve 0 82 test_parse_board = Returned (Some test_parse_solution) ∧
  test_parse_solution = test_parse_solution.
Proof.
  assert (solve 0 82 test_parse_board = Returned (Some test_parse_solution)) as Hrun
    by (by vm_compute).
  split; [exact Hrun|].
  exact (solve_forced_is_completion 82 test_parse_board test_parse_solution
           test_parse_solution test_parse_board_wf test_parse_completion Hrun).
Defined.

(** With branching that is lost: [spoiled_puzzle] has a valid completion,
    and [solve] returns another grid, accepted by [is_valid], that repeats
    a value in a column. *)
Lemma column_slip_spoils_solvable :
  completion spoiled_puzzle test_parse_solution ∧
  solve 81 82 spoiled_puzzle = Returned (Some spoiled_result) ∧
  is_valid spoiled_result = true ∧
  repeated_in same_column spoiled_result.
Proof.
  split_and!.
  - apply completion_check_sound; [|by vm_compute].
    split; [reflexivity | repeat constructor].
  - by vm_compute.
  - by vm_compute.
  - exists (2, 4), (6, 4). unfold in_grid, same_column. simpl.
    split_and!; [lia.. | done | done | by vm_compute | by vm_compute].
Qed.

(** ** The three generators *)

Lemma yield_box_length (b : Board) x y :
  x < 9 → y < 9 → length (yield_box b x y) = 8.
Proof.
  intros Hx Hy.
  do 9 (destruct x as [|x]; [do 9 (destruct y as [|y]; [reflexivity|]); lia|]). lia.
Qed.

Lemma yield_row_length (b : Board) x y :
  wf b → x < 9 → y < 9 → length (yield_row b x y) = 8.
Proof.
  intros Hwf Hx Hy. pose proof (row_length b x Hwf Hx) as Hlen. unfold yield_row.
  destruct (row b x) as [|v0 [|v1 [|v2 [|v3 [|v4 [|v5 [|v6 [|v7 [|v8 [|]]]]]]]]]]; try done.
  do 9 (destruct y as [|y]; [reflexivity|]). lia.
Qed.

Lemma yield_column_length (b : Board) x y :
  x < 9 → length (yield_column b x y) = 8.
Proof.
  intros Hx. do 9 (destruct x as [|x]; [reflexivity|]). lia.
Qed.

(** X20: for a cell of a well-formed board each of [yield_box],
    [yield_row] and [yield_column] yields eight values, and the values
    [_all_others] yields are exactly those held by the other cells of the
    row, the column and the box of the cell. *)
Theorem all_others_are_the_peers (b : Board) x y :
  wf b → in_grid (x, y) →
  length (yield_box b x y) = 8 ∧
  length (yield_row b x y) = 8 ∧
  length (yield_column b x y) = 8 ∧
  ∀ v, v ∈ _all_others b x y ↔ ∃ q, peer (x, y) q ∧ cell b q = v.
Proof.
  intros Hwf [Hx Hy]. simpl in Hx, Hy. split_and!.
  - by apply yield_box_length.
  - by apply yield_row_length.
  - by apply yield_column_length.
  - intros v. by apply elem_of_all_others.
Qed.

Lemma all_others_are_the_peers_witness :
  length (yield_box test_parse_board 4 7) = 8 ∧
  length (yield_row test_parse_board 4 7) = 8 ∧
  length (yield_column test_parse_board 4 7) = 8 ∧
  ∀ v, v ∈ _all_others test_parse_board 4 7 ↔
       ∃ q, peer (4, 7) q ∧ cell test_parse_board q = v.
Proof.
  apply (all_others_are_the_peers test_parse_board 4 7 test_parse_board_wf).
  split; simpl; lia.
Defined.
